(** * y-supabase: the Supabase Realtime provider for Yjs documents

    A shallow embedding of [src/SupabaseProvider.ts]: the base64 transport
    helpers [encodeUpdate] / [decodeUpdate] and the [SupabaseProvider] class
    (event handlers, throttled broadcasting, state-vector handshake,
    reconnect backoff, teardown), together with the properties the
    specification states about them. *)

From Stdlib Require Import ZArith Lia List.
From Stdlib.Strings Require Import Byte Ascii String.
From stdpp Require Import base option list gmap strings.

Local Open Scope Z_scope.

(* ===================================================================== *)
(** * Part I — definitions *)
(* ===================================================================== *)

(** ** JavaScript values *)

(** A [Uint8Array] is a sequence of bytes; a JavaScript string is a sequence
    of UTF-16 code units. *)
Abbreviation Uint8Array := (list byte).
Abbreviation JSString := (list Z).

Definition byte_to_Z (b : byte) : Z := Z.of_N (Byte.to_N b).

(** Storing a number into a [Uint8Array] slot keeps it modulo 256. *)
Definition toUint8 (n : Z) : byte :=
  default x00 (Byte.of_N (Z.to_N (n mod 256))).

(** [String.fromCharCode(n)] keeps [n] modulo 2^16. *)
Definition fromCharCode (n : Z) : Z := n mod 65536.

(** [String.fromCharCode.apply(null, Array.from(chunk))]. *)
Definition fromCharCode_apply (chunk : Uint8Array) : JSString :=
  map (fun b => fromCharCode (byte_to_Z b)) chunk.

(** [a.subarray(i, j)] for [0 <= i <= j]: the end is clamped to the length. *)
Definition subarray (a : Uint8Array) (i j : nat) : Uint8Array :=
  take (j - i)%nat (drop i a).

(** A JavaScript number, as far as a timer delay needs it: an integer,
    [Infinity], [-Infinity] or [NaN].  Settings are integers (and doubles,
    so below [2^1024] in magnitude); the product of such an integer and a
    power of two is exact in double arithmetic unless it overflows. *)
Inductive JSNumber :=
| Finite (z : Z)
| Infinity
| NegInfinity
| NaN.

Definition double_range : Z := 2 ^ 1024.

(** [Math.pow(2, k)] for an integer [k >= 0]: exact up to [k = 1023],
    [Infinity] from 1024 on.  A negative [k], which the attempt counter
    never is, gives a fraction in the code; fractions are not modelled. *)
Definition Math_pow2 (k : Z) : JSNumber :=
  if k <? 1024 then Finite (2 ^ k) else Infinity.

(** [b * x] for an integer double [b] and [x] a power of two or infinite:
    exact, [+-Infinity] when the product leaves the range of doubles, and
    [NaN] for zero times infinity. *)
Definition js_mul (b : Z) (x : JSNumber) : JSNumber :=
  match x with
  | Finite x =>
      let r := b * x in
      if (Z.abs b <? double_range) && (double_range <=? Z.abs r)
      then (if 0 <? r then Infinity else NegInfinity)
      else Finite r
  | Infinity =>
      if b =? 0 then NaN else if 0 <? b then Infinity else NegInfinity
  | NegInfinity =>
      if b =? 0 then NaN else if 0 <? b then NegInfinity else Infinity
  | NaN => NaN
  end.

(** [Math.min(x, m)] for an integer [m]: [NaN] if [x] is. *)
Definition Math_min (x : JSNumber) (m : Z) : JSNumber :=
  match x with
  | Finite a => Finite (Z.min a m)
  | Infinity => Finite m
  | NegInfinity => NegInfinity
  | NaN => NaN
  end.

(** [x <= y]: false whenever one side is [NaN]. *)
Definition js_le (x y : JSNumber) : Prop :=
  match x, y with
  | NaN, _ | _, NaN => False
  | NegInfinity, _ => True
  | _, Infinity => True
  | Finite a, Finite b => a <= b
  | _, _ => False
  end.

(** [x > m] for an integer [m]. *)
Definition js_exceeds (x : JSNumber) (m : Z) : Prop :=
  match x with
  | Finite a => m < a
  | Infinity => True
  | NegInfinity | NaN => False
  end.

(** A string literal as code units (for examples). *)
Definition js (s : string) : JSString :=
  map (fun c => Z.of_nat (nat_of_ascii c)) (list_ascii_of_string s).

(** ** The host's [btoa] and [atob]

    Both are platform functions.  [btoa] is the base64 encoding of RFC 4648
    with padding, refused for a code unit above 0xFF; [atob] is the
    forgiving base64 decoding of the WHATWG Infra standard.  [None] stands
    for the [InvalidCharacterError] they throw. *)
Module Base64.

Definition sextet (s : Z) : Prop := 0 <= s < 64.
Definition octet (b : Z) : Prop := 0 <= b <= 255.

Definition pad_char : Z := 61.

(** The alphabet [A-Z a-z 0-9 + /], as code units. *)
Definition b64_char (i : Z) : Z :=
  if i <? 26 then 65 + i
  else if i <? 52 then 71 + i
  else if i <? 62 then i - 4
  else if i =? 62 then 43
  else 47.

Definition b64_index (c : Z) : option Z :=
  if (65 <=? c) && (c <=? 90) then Some (c - 65)
  else if (97 <=? c) && (c <=? 122) then Some (c - 71)
  else if (48 <=? c) && (c <=? 57) then Some (c + 4)
  else if c =? 43 then Some 62
  else if c =? 47 then Some 63
  else None.

(** The 6-bit groups of a byte sequence: four per 24-bit quantum, three
    for a final 16 bits, two for a final 8 bits (zero bits appended). *)
Fixpoint b64_sextets (bs : list Z) : list Z :=
  match bs with
  | [] => []
  | [a] => [a / 4; (a mod 4) * 16]
  | [a; b] => [a / 4; (a mod 4) * 16 + b / 16; (b mod 16) * 4]
  | a :: b :: c :: rest =>
      a / 4 :: (a mod 4) * 16 + b / 16 :: (b mod 16) * 4 + c / 64
        :: c mod 64 :: b64_sextets rest
  end.

Definition b64_padding (n : nat) : nat :=
  match (n mod 3)%nat with
  | 1%nat => 2%nat
  | 2%nat => 1%nat
  | _ => 0%nat
  end.

(** Length modulo four of the sextets of the final quantum, and the
    padding that completes it. *)
Inductive final_quantum : nat -> nat -> Prop :=
| fq_full : final_quantum 0 0
| fq_one_octet : final_quantum 2 2
| fq_two_octets : final_quantum 3 1.

Definition b64_encode (bs : list Z) : JSString :=
  map b64_char (b64_sextets bs) ++ replicate (b64_padding (length bs)) pad_char.

Definition btoa (data : JSString) : option JSString :=
  if forallb (fun c => (0 <=? c) && (c <=? 255)) data
  then Some (b64_encode data)
  else None.

(** TAB, LF, FF, CR and SPACE. *)
Definition is_ascii_whitespace (c : Z) : bool :=
  (c =? 9) || (c =? 10) || (c =? 12) || (c =? 13) || (c =? 32).

(** One or two trailing [=] are removed. *)
Definition strip_padding (d : JSString) : JSString :=
  match rev d with
  | c1 :: r1 =>
      if c1 =? pad_char then
        match r1 with
        | c2 :: r2 => if c2 =? pad_char then rev r2 else rev r1
        | [] => rev r1
        end
      else d
  | [] => d
  end.

(** Bytes out of 6-bit groups; the bits left over in a final group of two
    or three are discarded. *)
Fixpoint b64_decode_sextets (ss : list Z) : list Z :=
  match ss with
  | s1 :: s2 :: s3 :: s4 :: rest =>
      s1 * 4 + s2 / 16 :: (s2 mod 16) * 16 + s3 / 4 :: (s3 mod 4) * 64 + s4
        :: b64_decode_sextets rest
  | [s1; s2; s3] => [s1 * 4 + s2 / 16; (s2 mod 16) * 16 + s3 / 4]
  | [s1; s2] => [s1 * 4 + s2 / 16]
  | _ => []
  end.

Definition atob (data : JSString) : option JSString :=
  let data := List.filter (fun c => negb (is_ascii_whitespace c)) data in
  let data :=
    if (length data mod 4 =? 0)%nat then strip_padding data else data in
  if (length data mod 4 =? 1)%nat then None
  else sextets ← mapM b64_index data; Some (b64_decode_sextets sextets).

End Base64.

(** ** [encodeUpdate] and [decodeUpdate] *)

Definition chunkSize : nat := Z.to_nat 32768.
Global Arguments chunkSize : simpl never.

(** The [for (let i = 0; i < update.length; i += chunkSize)] loop of
    [encodeUpdate]; every iteration moves [i] forward, so [length update]
    iterations always suffice. *)
Fixpoint encodeUpdate_loop (fuel : nat) (update : Uint8Array) (i : nat)
    (binary : JSString) : JSString :=
  match fuel with
  | O => binary
  | S fuel' =>
      if (i <? length update)%nat then
        encodeUpdate_loop fuel' update (i + chunkSize)%nat
          (binary ++ fromCharCode_apply (subarray update i (i + chunkSize)))
      else binary
  end.

Definition encodeUpdate (update : Uint8Array) : option JSString :=
  Base64.btoa (encodeUpdate_loop (length update) update 0 []).

(** The [for (let i = 0; i < binary.length; i += 1) bytes[i] = ...] loop of
    [decodeUpdate], over the indices [0 .. binary.length - 1]. *)
Definition decodeUpdate_loop (binary : JSString) (bytes : Uint8Array)
  : Uint8Array :=
  fold_left (fun bytes i => <[i := toUint8 (nth i binary 0)]> bytes)
            (seq 0 (length binary)) bytes.

Definition decodeUpdate (encoded : JSString) : option Uint8Array :=
  binary ← Base64.atob encoded;
  Some (decodeUpdate_loop binary (replicate (length binary) x00)).

(** ** The event emitter: [on], [off] and [emit]

    [listeners] is a [Map] from event names to [Set]s of callbacks.  A
    callback is known by its identity; a [Set] keeps its members once each,
    in insertion order. *)
Module EventBus.

(** [keyof ProviderEventMap] *)
Inductive EventName :=
| name_message | name_awareness | name_status
| name_connect | name_disconnect | name_error.

Definition EventName_to_nat (e : EventName) : nat :=
  match e with
  | name_message => 0 | name_awareness => 1 | name_status => 2
  | name_connect => 3 | name_disconnect => 4 | name_error => 5
  end%nat.

Definition EventName_of_nat (n : nat) : EventName :=
  match n with
  | 0 => name_message | 1 => name_awareness | 2 => name_status
  | 3 => name_connect | 4 => name_disconnect | _ => name_error
  end%nat.

#[export] Instance EventName_eq_dec : EqDecision EventName.
Proof. solve_decision. Defined.

#[export] Instance EventName_countable : Countable EventName.
Proof.
  apply (inj_countable' EventName_to_nat EventName_of_nat).
  by intros [].
Defined.

Abbreviation Listener := nat.

(** [Set.prototype.add] and [Set.prototype.delete] *)
Definition set_add (x : Listener) (s : list Listener) : list Listener :=
  if decide (x ∈ s) then s else s ++ [x].

Definition set_delete (x : Listener) (s : list Listener) : list Listener :=
  filter (fun y => y <> x) s.

Abbreviation Registry := (gmap EventName (list Listener)).

Definition on (event : EventName) (listener : Listener) (listeners : Registry)
  : Registry :=
  let listeners :=
    match listeners !! event with
    | Some _ => listeners
    | None => <[event := []]> listeners
    end in
  match listeners !! event with
  | Some s => <[event := set_add listener s]> listeners
  | None => listeners
  end.

(** [this.listeners.get(event)?.delete(listener)] *)
Definition off (event : EventName) (listener : Listener) (listeners : Registry)
  : Registry :=
  match listeners !! event with
  | Some s => <[event := set_delete listener s]> listeners
  | None => listeners
  end.

(** The calls [emit(event, ...args)] makes, in order. *)
Definition emit {A} (event : EventName) (args : A) (listeners : Registry)
  : list (Listener * A) :=
  match listeners !! event with
  | Some eventListeners => map (fun listener => (listener, args)) eventListeners
  | None => []
  end.

(** No [Set] of the registry holds a callback twice. *)
Definition distinct (listeners : Registry) : Prop :=
  forall event s, listeners !! event = Some s -> NoDup s.

(** How often [emit] called a listener. *)
Definition calls_of {A} (listener : Listener) (calls : list (Listener * A))
  : nat :=
  length (filter (fun c => c.1 = listener) calls).

End EventBus.

(** ** The host's timers

    [setTimeout] hands out fresh handles; a timer is pending from
    [setTimeout] until it fires or is cleared.  The table holds the timers
    the provider arms itself; the interval a presence container keeps
    inside y-protocols is not part of it. *)
Abbreviation TimerId := nat.

Inductive TimerKind :=
| Flush      (* the callback armed by [queueBroadcast] *)
| Reconnect. (* the callback armed by [scheduleReconnect] *)

Module Timers.
Record table := mkTable {
  pending : gmap nat TimerKind;
  next : nat;
}.

Definition empty : table := {| pending := ∅; next := 1 |}.

Definition setTimeout (k : TimerKind) (t : table) : nat * table :=
  (next t, {| pending := <[next t := k]> (pending t); next := S (next t) |}).

Definition clearTimeout (id : nat) (t : table) : table :=
  {| pending := delete id (pending t); next := next t |}.

Definition armed (k : TimerKind) (t : table) : Prop :=
  exists id, pending t !! id = Some k.
End Timers.

(** ** The merge engine and the presence container

    Yjs and y-protocols are external: the provider only calls them.  A call
    that may throw returns what it threw; [Y_applyUpdate] and
    [applyAwarenessUpdate] also return the object as the call left it. *)
Record AwarenessChanges := {
  added : list Z;
  updated : list Z;
  removed : list Z;
}.

Class MergeEngine := {
  Doc : Type;
  Awareness : Type;
  Thrown : Type;
  instanceofError : Thrown -> bool;
  Y_applyUpdate : Doc -> Uint8Array -> Doc * option Thrown;
  Y_encodeStateVector : Doc -> Uint8Array;
  Y_encodeStateAsUpdate : Doc -> Uint8Array -> Thrown + Uint8Array;
  Y_mergeUpdates : list Uint8Array -> Uint8Array;
  doc_clientID : Doc -> Z;
  applyAwarenessUpdate :
    Awareness -> Uint8Array -> Awareness * AwarenessChanges * option Thrown;
  encodeAwarenessUpdate : Awareness -> list Z -> Uint8Array;
  awareness_clients : Awareness -> list Z;
  (** the new container and the clients whose state was removed *)
  removeAwarenessStates : Awareness -> list Z -> Awareness * list Z;
}.

(** ** Provider data *)

Inductive Status := connecting | connected | disconnected.

Inductive Topic := UPDATE_EVENT | STATE_VECTOR_EVENT | AWARENESS_EVENT.

Inductive REALTIME_SUBSCRIBE_STATES :=
| SUBSCRIBED | CHANNEL_ERROR | TIMED_OUT | CLOSED.

(** The second argument of [doc.on('update', ...)] listeners: the string
    ['remote'] or anything else. *)
Inductive Origin := origin_remote | origin_other.

Abbreviation Channel := nat.

(** [SupabaseProviderOptions]; an absent field is [None].  Durations and
    counts are integers. *)
Record Options := {
  broadcastThrottleMs : option Z;
  autoReconnect : option bool;
  maxReconnectAttempts : option Z;
  reconnectDelay : option Z;
  maxReconnectDelay : option Z;
}.

(** An inbound broadcast payload: [update] or [stateVector], and [user.id].
    The timestamp is never read. *)
Record Payload := {
  body : JSString;
  sender : string;
}.

Section provider.
Context `{ME : MergeEngine}.

(** What a [catch] clause may receive. *)
Inductive Exn :=
| InvalidCharacterError      (* thrown by [atob] *)
| Raised (t : Thrown).       (* thrown by the engine *)

(** The argument of an [error] event: the caught [Error], or a new one. *)
Inductive ErrorValue :=
| Caught (e : Exn)
| NewError (message : string).

(** [err instanceof Error ? err : new Error(message)] *)
Definition error_of (e : Exn) (message : string) : ErrorValue :=
  match e with
  | InvalidCharacterError => Caught e
  | Raised t => if instanceofError t then Caught e else NewError message
  end.

(** [ProviderEventMap] *)
Inductive ProviderEvent :=
| message_event (update : Uint8Array)
| awareness_event (update : Uint8Array)
| status_event (s : Status)
| connect_event
| disconnect_event
| error_event (e : ErrorValue).

(** What a method does to the outside, in order. *)
Inductive Effect :=
| Send (ch : Channel) (event : Topic) (payload : JSString) (user : string)
| Emit (ev : ProviderEvent)
| SetTimeout (id : TimerId) (k : TimerKind) (delay : JSNumber)
| ClearTimeout (id : TimerId)
| Subscribe (ch : Channel)
| RemoveChannel (ch : Channel)
| ComputeDiff (stateVector : Uint8Array).  (* [Y.encodeStateAsUpdate] called *)

Record Provider := mkProvider {
  options : option Options;
  userId : string;
  channel : option Channel;
  status : Status;
  broadcastTimeout : option TimerId;
  pendingUpdates : list Uint8Array;
  syncedPeers : gset string;
  awareness : option Awareness;
  reconnectAttempts : Z;
  reconnectTimeout : option TimerId;
  shouldReconnect : bool;
  doc : Doc;
(** Host side: is [handleDocUpdate] registered on the document's
    [update] event, is [handleAwarenessUpdate] registered on the presence
    container, which timers are pending, how many channels were opened. *)
  docObserved : bool;
  awarenessObserved : bool;
  timers : Timers.table;
  channelsOpened : nat;
}.

Definition set_channel (v : option Channel) (p : Provider) : Provider :=
  {| options := options p; userId := userId p; channel := v;
     status := status p; broadcastTimeout := broadcastTimeout p;
     pendingUpdates := pendingUpdates p; syncedPeers := syncedPeers p;
     awareness := awareness p; reconnectAttempts := reconnectAttempts p;
     reconnectTimeout := reconnectTimeout p;
     shouldReconnect := shouldReconnect p; doc := doc p;
     docObserved := docObserved p;
     awarenessObserved := awarenessObserved p; timers := timers p;
     channelsOpened := channelsOpened p |}.

Definition set_status (v : Status) (p : Provider) : Provider :=
  {| options := options p; userId := userId p; channel := channel p;
     status := v; broadcastTimeout := broadcastTimeout p;
     pendingUpdates := pendingUpdates p; syncedPeers := syncedPeers p;
     awareness := awareness p; reconnectAttempts := reconnectAttempts p;
     reconnectTimeout := reconnectTimeout p;
     shouldReconnect := shouldReconnect p; doc := doc p;
     docObserved := docObserved p;
     awarenessObserved := awarenessObserved p; timers := timers p;
     channelsOpened := channelsOpened p |}.

Definition set_broadcastTimeout (v : option TimerId) (p : Provider) : Provider :=
  {| options := options p; userId := userId p; channel := channel p;
     status := status p; broadcastTimeout := v;
     pendingUpdates := pendingUpdates p; syncedPeers := syncedPeers p;
     awareness := awareness p; reconnectAttempts := reconnectAttempts p;
     reconnectTimeout := reconnectTimeout p;
     shouldReconnect := shouldReconnect p; doc := doc p;
     docObserved := docObserved p;
     awarenessObserved := awarenessObserved p; timers := timers p;
     channelsOpened := channelsOpened p |}.

Definition set_pendingUpdates (v : list Uint8Array) (p : Provider) : Provider :=
  {| options := options p; userId := userId p; channel := channel p;
     status := status p; broadcastTimeout := broadcastTimeout p;
     pendingUpdates := v; syncedPeers := syncedPeers p;
     awareness := awareness p; reconnectAttempts := reconnectAttempts p;
     reconnectTimeout := reconnectTimeout p;
     shouldReconnect := shouldReconnect p; doc := doc p;
     docObserved := docObserved p;
     awarenessObserved := awarenessObserved p; timers := timers p;
     channelsOpened := channelsOpened p |}.

Definition set_syncedPeers (v : gset string) (p : Provider) : Provider :=
  {| options := options p; userId := userId p; channel := channel p;
     status := status p; broadcastTimeout := broadcastTimeout p;
     pendingUpdates := pendingUpdates p; syncedPeers := v;
     awareness := awareness p; reconnectAttempts := reconnectAttempts p;
     reconnectTimeout := reconnectTimeout p;
     shouldReconnect := shouldReconnect p; doc := doc p;
     docObserved := docObserved p;
     awarenessObserved := awarenessObserved p; timers := timers p;
     channelsOpened := channelsOpened p |}.

Definition set_awareness (v : option Awareness) (p : Provider) : Provider :=
  {| options := options p; userId := userId p; channel := channel p;
     status := status p; broadcastTimeout := broadcastTimeout p;
     pendingUpdates := pendingUpdates p; syncedPeers := syncedPeers p;
     awareness := v; reconnectAttempts := reconnectAttempts p;
     reconnectTimeout := reconnectTimeout p;
     shouldReconnect := shouldReconnect p; doc := doc p;
     docObserved := docObserved p;
     awarenessObserved := awarenessObserved p; timers := timers p;
     channelsOpened := channelsOpened p |}.

Definition set_reconnectAttempts (v : Z) (p : Provider) : Provider :=
  {| options := options p; userId := userId p; channel := channel p;
     status := status p; broadcastTimeout := broadcastTimeout p;
     pendingUpdates := pendingUpdates p; syncedPeers := syncedPeers p;
     awareness := awareness p; reconnectAttempts := v;
     reconnectTimeout := reconnectTimeout p;
     shouldReconnect := shouldReconnect p; doc := doc p;
     docObserved := docObserved p;
     awarenessObserved := awarenessObserved p; timers := timers p;
     channelsOpened := channelsOpened p |}.

Definition set_reconnectTimeout (v : option TimerId) (p : Provider) : Provider :=
  {| options := options p; userId := userId p; channel := channel p;
     status := status p; broadcastTimeout := broadcastTimeout p;
     pendingUpdates := pendingUpdates p; syncedPeers := syncedPeers p;
     awareness := awareness p; reconnectAttempts := reconnectAttempts p;
     reconnectTimeout := v; shouldReconnect := shouldReconnect p;
     doc := doc p; docObserved := docObserved p;
     awarenessObserved := awarenessObserved p; timers := timers p;
     channelsOpened := channelsOpened p |}.

Definition set_shouldReconnect (v : bool) (p : Provider) : Provider :=
  {| options := options p; userId := userId p; channel := channel p;
     status := status p; broadcastTimeout := broadcastTimeout p;
     pendingUpdates := pendingUpdates p; syncedPeers := syncedPeers p;
     awareness := awareness p; reconnectAttempts := reconnectAttempts p;
     reconnectTimeout := reconnectTimeout p; shouldReconnect := v;
     doc := doc p; docObserved := docObserved p;
     awarenessObserved := awarenessObserved p; timers := timers p;
     channelsOpened := channelsOpened p |}.

Definition set_doc (v : Doc) (p : Provider) : Provider :=
  {| options := options p; userId := userId p; channel := channel p;
     status := status p; broadcastTimeout := broadcastTimeout p;
     pendingUpdates := pendingUpdates p; syncedPeers := syncedPeers p;
     awareness := awareness p; reconnectAttempts := reconnectAttempts p;
     reconnectTimeout := reconnectTimeout p;
     shouldReconnect := shouldReconnect p; doc := v;
     docObserved := docObserved p;
     awarenessObserved := awarenessObserved p; timers := timers p;
     channelsOpened := channelsOpened p |}.

Definition set_docObserved (v : bool) (p : Provider) : Provider :=
  {| options := options p; userId := userId p; channel := channel p;
     status := status p; broadcastTimeout := broadcastTimeout p;
     pendingUpdates := pendingUpdates p; syncedPeers := syncedPeers p;
     awareness := awareness p; reconnectAttempts := reconnectAttempts p;
     reconnectTimeout := reconnectTimeout p;
     shouldReconnect := shouldReconnect p; doc := doc p; docObserved := v;
     awarenessObserved := awarenessObserved p; timers := timers p;
     channelsOpened := channelsOpened p |}.

Definition set_awarenessObserved (v : bool) (p : Provider) : Provider :=
  {| options := options p; userId := userId p; channel := channel p;
     status := status p; broadcastTimeout := broadcastTimeout p;
     pendingUpdates := pendingUpdates p; syncedPeers := syncedPeers p;
     awareness := awareness p; reconnectAttempts := reconnectAttempts p;
     reconnectTimeout := reconnectTimeout p;
     shouldReconnect := shouldReconnect p; doc := doc p;
     docObserved := docObserved p; awarenessObserved := v;
     timers := timers p; channelsOpened := channelsOpened p |}.

Definition set_timers (v : Timers.table) (p : Provider) : Provider :=
  {| options := options p; userId := userId p; channel := channel p;
     status := status p; broadcastTimeout := broadcastTimeout p;
     pendingUpdates := pendingUpdates p; syncedPeers := syncedPeers p;
     awareness := awareness p; reconnectAttempts := reconnectAttempts p;
     reconnectTimeout := reconnectTimeout p;
     shouldReconnect := shouldReconnect p; doc := doc p;
     docObserved := docObserved p;
     awarenessObserved := awarenessObserved p; timers := v;
     channelsOpened := channelsOpened p |}.

Definition set_channelsOpened (v : nat) (p : Provider) : Provider :=
  {| options := options p; userId := userId p; channel := channel p;
     status := status p; broadcastTimeout := broadcastTimeout p;
     pendingUpdates := pendingUpdates p; syncedPeers := syncedPeers p;
     awareness := awareness p; reconnectAttempts := reconnectAttempts p;
     reconnectTimeout := reconnectTimeout p;
     shouldReconnect := shouldReconnect p; doc := doc p;
     docObserved := docObserved p;
     awarenessObserved := awarenessObserved p; timers := timers p;
     channelsOpened := v |}.

(** ** Methods: state transformers that log their effects *)

Definition Op := Provider -> Provider * list Effect.

Definition skip : Op := fun p => (p, []).
Definition effect (e : Effect) : Op := fun p => (p, [e]).
Definition modify (f : Provider -> Provider) : Op := fun p => (f p, []).
Definition andThen (a b : Op) : Op := fun p =>
  let '(p1, fx1) := a p in
  let '(p2, fx2) := b p1 in
  (p2, fx1 ++ fx2).
Notation "a >> b" := (andThen a b) (at level 100, b at level 200, right associativity).

Definition setTimeout (k : TimerKind) (delay : JSNumber)
    (store : TimerId -> Provider -> Provider) : Op := fun p =>
  let '(id, t) := Timers.setTimeout k (timers p) in
  (store id (set_timers t p), [SetTimeout id k delay]).

Definition clearTimeout (id : TimerId) : Op :=
  modify (fun p => set_timers (Timers.clearTimeout id (timers p)) p)
  >> effect (ClearTimeout id).

(** [encodeUpdate] never throws ([encodeUpdate_total]); the payload is its
    value. *)
Definition wire (update : Uint8Array) : JSString :=
  default [] (encodeUpdate update).

Definition emit (ev : ProviderEvent) : Op := effect (Emit ev).

Definition setStatus (next : Status) : Op :=
  modify (set_status next) >> emit (status_event next).

Definition broadcastUpdate (update : Uint8Array) (event : Topic) : Op :=
  fun p =>
    match channel p with
    | None => skip p
    | Some ch => effect (Send ch event (wire update) (userId p)) p
    end.

(** [this.options?.broadcastThrottleMs ?? 0] *)
Definition throttle_of (p : Provider) : Z :=
  default 0 (options p ≫= broadcastThrottleMs).

(** The callback [queueBroadcast] hands to [setTimeout]. *)
Definition flush : Op :=
  modify (set_broadcastTimeout None) >>
  fun p =>
    match pendingUpdates p with
    | [] => skip p
    | [update] =>
        (modify (set_pendingUpdates []) >> broadcastUpdate update UPDATE_EVENT) p
    | updates =>
        (modify (set_pendingUpdates []) >>
         broadcastUpdate (Y_mergeUpdates updates) UPDATE_EVENT) p
    end.

Definition queueBroadcast (update : Uint8Array) : Op := fun p =>
  let throttle := throttle_of p in
  if throttle <=? 0 then broadcastUpdate update UPDATE_EVENT p
  else
    (modify (fun p => set_pendingUpdates (pendingUpdates p ++ [update]) p) >>
     fun p =>
       match broadcastTimeout p with
       | Some _ => skip p
       | None =>
           setTimeout Flush (Finite throttle)
             (fun id => set_broadcastTimeout (Some id)) p
       end) p.

Definition handleDocUpdate (update : Uint8Array) (origin : Origin) : Op :=
  match origin with
  | origin_remote => skip
  | origin_other => queueBroadcast update
  end.

(** The document's [update] event, delivered to [handleDocUpdate] when it
    is registered. *)
Definition doc_update_event (update : Uint8Array) (origin : Origin) : Op :=
  fun p => if docObserved p then handleDocUpdate update origin p else skip p.

Definition handleRemoteUpdate (payload : Payload) : Op := fun p =>
  if decide (sender payload = userId p) then skip p
  else
    match decodeUpdate (body payload) with
    | None =>
        emit (error_event
                (error_of InvalidCharacterError "Failed to apply remote update")) p
    | Some update =>
        let '(d, thrown) := Y_applyUpdate (doc p) update in
        (modify (set_doc d) >>
         doc_update_event update origin_remote >>
         match thrown with
         | None => emit (message_event update)
         | Some t =>
             emit (error_event
                     (error_of (Raised t) "Failed to apply remote update"))
         end) p
    end.

Definition broadcastAwarenessUpdate (update : Uint8Array) : Op := fun p =>
  match channel p with
  | None => skip p
  | Some ch => effect (Send ch AWARENESS_EVENT (wire update) (userId p)) p
  end.

Definition handleAwarenessUpdate (changes : AwarenessChanges)
    (origin : Origin) : Op := fun p =>
  match awareness p with
  | None => skip p
  | Some aw =>
      match origin with
      | origin_remote => skip p
      | origin_other =>
          broadcastAwarenessUpdate
            (encodeAwarenessUpdate aw
               (added changes ++ updated changes ++ removed changes)) p
      end
  end.

(** The presence container's [update] event. *)
Definition awareness_update_event (changes : AwarenessChanges)
    (origin : Origin) : Op := fun p =>
  if awarenessObserved p then handleAwarenessUpdate changes origin p
  else skip p.

Definition handleRemoteAwareness (payload : Payload) : Op := fun p =>
  match awareness p with
  | None => skip p
  | Some aw =>
      if decide (sender payload = userId p) then skip p
      else
        match decodeUpdate (body payload) with
        | None =>
            emit (error_event
                    (error_of InvalidCharacterError
                              "Failed to apply awareness update")) p
        | Some update =>
            let '(aw', changes, thrown) := applyAwarenessUpdate aw update in
            (modify (set_awareness (Some aw')) >>
             awareness_update_event changes origin_remote >>
             match thrown with
             | None => emit (awareness_event update)
             | Some t =>
                 emit (error_event
                         (error_of (Raised t)
                                   "Failed to apply awareness update"))
             end) p
        end
  end.

Definition sendStateVector : Op := fun p =>
  match channel p with
  | None => skip p
  | Some ch =>
      effect (Send ch STATE_VECTOR_EVENT
                   (wire (Y_encodeStateVector (doc p))) (userId p)) p
  end.

Definition handleStateVector (payload : Payload) : Op := fun p =>
  if decide (sender payload = userId p) then skip p
  else if decide (sender payload ∈ syncedPeers p) then skip p
  else
    (modify (fun p => set_syncedPeers ({[sender payload]} ∪ syncedPeers p) p) >>
     fun p =>
       match decodeUpdate (body payload) with
       | None =>
           emit (error_event
                   (error_of InvalidCharacterError
                             "Failed to handle state vector")) p
       | Some remoteStateVector =>
           (effect (ComputeDiff remoteStateVector) >>
            match Y_encodeStateAsUpdate (doc p) remoteStateVector with
            | inl t =>
                emit (error_event
                        (error_of (Raised t) "Failed to handle state vector"))
            | inr diff =>
                (if (2 <? length diff)%nat
                 then broadcastUpdate diff UPDATE_EVENT else skip) >>
                sendStateVector
            end) p
       end) p.

(** [this.options?.autoReconnect ?? true] and the like. *)
Definition autoReconnect_of (p : Provider) : bool :=
  default true (options p ≫= autoReconnect).
Definition baseDelay_of (p : Provider) : Z :=
  default 1000 (options p ≫= reconnectDelay).
Definition maxDelay_of (p : Provider) : Z :=
  default 30000 (options p ≫= maxReconnectDelay).

(** [this.reconnectAttempts >= maxAttempts], where an absent maximum is
    [Infinity]. *)
Definition attempts_exhausted (p : Provider) : bool :=
  match options p ≫= maxReconnectAttempts with
  | None => false
  | Some maxAttempts => maxAttempts <=? reconnectAttempts p
  end.

Definition connect : Op :=
  modify (set_shouldReconnect true) >>
  modify (set_docObserved false) >>
  modify (set_docObserved true) >>
  modify (set_syncedPeers ∅) >>
  fun p =>
    let ch := channelsOpened p in
    (modify (set_channelsOpened (S ch)) >>
     modify (set_channel (Some ch)) >>
     effect (Subscribe ch)) p.

(** The callback [scheduleReconnect] hands to [setTimeout]. *)
Definition reconnect_callback : Op := fun p =>
  if shouldReconnect p then connect p else skip p.

Definition scheduleReconnect : Op := fun p =>
  if negb (autoReconnect_of p) || negb (shouldReconnect p)
     || attempts_exhausted p
  then skip p
  else
    ((fun p =>
        match reconnectTimeout p with
        | Some id => (clearTimeout id >> modify (set_reconnectTimeout None)) p
        | None => skip p
        end) >>
     fun p =>
       let baseDelay := baseDelay_of p in
       let maxDelay := maxDelay_of p in
       let delay :=
         Math_min (js_mul baseDelay (Math_pow2 (reconnectAttempts p)))
                  maxDelay in
       (modify (set_reconnectAttempts (reconnectAttempts p + 1)) >>
        setTimeout Reconnect delay (fun id => set_reconnectTimeout (Some id))) p
    ) p.

(** The callback [connect] hands to [subscribe]; [err] is the message of
    the channel's error, when it gives one. *)
Definition subscribe_callback (st : REALTIME_SUBSCRIBE_STATES)
    (err : option string) : Op :=
  match st with
  | SUBSCRIBED =>
      setStatus connected >>
      emit connect_event >>
      modify (set_reconnectAttempts 0) >>
      (fun p =>
         match awareness p with
         | Some aw =>
             broadcastAwarenessUpdate
               (encodeAwarenessUpdate aw (awareness_clients aw)) p
         | None => skip p
         end) >>
      sendStateVector
  | CHANNEL_ERROR =>
      setStatus disconnected >>
      emit (error_event (NewError (default "Channel error"%string err))) >>
      emit disconnect_event >>
      scheduleReconnect
  | TIMED_OUT =>
      setStatus disconnected >>
      emit (error_event (NewError "Connection timed out")) >>
      emit disconnect_event >>
      scheduleReconnect
  | CLOSED =>
      setStatus disconnected >>
      emit disconnect_event >>
      scheduleReconnect
  end.

Definition destroy : Op :=
  modify (set_shouldReconnect false) >>
  (fun p =>
     match broadcastTimeout p with
     | Some id => (clearTimeout id >> modify (set_broadcastTimeout None)) p
     | None => skip p
     end) >>
  (fun p =>
     match reconnectTimeout p with
     | Some id => (clearTimeout id >> modify (set_reconnectTimeout None)) p
     | None => skip p
     end) >>
  modify (set_docObserved false) >>
  (fun p =>
     match awareness p with
     | Some aw =>
         let '(aw', gone) := removeAwarenessStates aw [doc_clientID (doc p)] in
         (modify (set_awareness (Some aw')) >>
          match gone with
          | [] => skip
          | _ =>
              awareness_update_event
                {| added := []; updated := []; removed := gone |} origin_other
          end >>
          modify (set_awarenessObserved false)) p
     | None => skip p
     end) >>
  fun p =>
    match channel p with
    | Some ch => (effect (RemoveChannel ch) >> modify (set_channel None)) p
    | None => skip p
    end.

Definition getStatus (p : Provider) : Status := status p.

(** [new SupabaseProvider(channelName, doc, supabase, options)]; [uid] is
    the identifier [crypto.randomUUID()] returns and [aw] the presence
    container when [options.awareness] asks for one. *)
Definition constructor (uid : string) (d : Doc) (aw : option Awareness)
    (opts : option Options) : Provider * list Effect :=
  connect
    {| options := opts; userId := uid; channel := None; status := connecting;
       broadcastTimeout := None; pendingUpdates := []; syncedPeers := ∅;
       awareness := aw; reconnectAttempts := 0; reconnectTimeout := None;
       shouldReconnect := true; doc := d; docObserved := false;
       awarenessObserved := bool_decide (is_Some aw); timers := Timers.empty;
       channelsOpened := 0 |}.

(** ** The provider in its environment *)

Inductive Event :=
| CallConnect
| CallDestroy
| ChannelStatus (st : REALTIME_SUBSCRIBE_STATES) (err : option string)
| OnStateVector (payload : Payload)
| OnUpdate (payload : Payload)
| OnAwareness (payload : Payload)
(** a transaction of the application on the document: its new content and
    the [update] event it fires *)
| DocUpdate (d : Doc) (update : Uint8Array) (origin : Origin)
(** a change of the application to the presence container *)
| AwarenessUpdate (aw : Awareness) (changes : AwarenessChanges) (origin : Origin)
| TimerFires (id : TimerId).

Definition timer_fires (id : TimerId) : Op := fun p =>
  match Timers.pending (timers p) !! id with
  | None => skip p
  | Some k =>
      (modify (fun p => set_timers (Timers.clearTimeout id (timers p)) p) >>
       match k with
       | Flush => flush
       | Reconnect => reconnect_callback
       end) p
  end.

Definition step (ev : Event) : Op :=
  match ev with
  | CallConnect => connect
  | CallDestroy => destroy
  | ChannelStatus st err => subscribe_callback st err
  | OnStateVector payload => handleStateVector payload
  | OnUpdate payload => handleRemoteUpdate payload
  | OnAwareness payload => handleRemoteAwareness payload
  | DocUpdate d update origin =>
      modify (set_doc d) >> doc_update_event update origin
  | AwarenessUpdate aw changes origin =>
      modify (fun p => match awareness p with
                       | Some _ => set_awareness (Some aw) p
                       | None => p
                       end) >>
      awareness_update_event changes origin
  | TimerFires id => timer_fires id
  end.

Fixpoint run (evs : list Event) : Op :=
  match evs with
  | [] => skip
  | ev :: evs' => step ev >> run evs'
  end.

(** States the provider can be in: as constructed, then after any events. *)
Inductive reachable : Provider -> Prop :=
| reachable_new uid d aw opts : reachable (constructor uid d aw opts).1
| reachable_step ev p : reachable p -> reachable (step ev p).1.

(** Does this event call [connect()]: directly, or as the reconnect timer
    firing while reconnection is wanted. *)
Definition calls_connect (ev : Event) (p : Provider) : bool :=
  match ev with
  | CallConnect => true
  | TimerFires id =>
      match Timers.pending (timers p) !! id with
      | Some Reconnect => shouldReconnect p
      | _ => false
      end
  | _ => false
  end.

(** A run within one connection epoch: no event of it calls [connect()]. *)
Fixpoint same_epoch (evs : list Event) (p : Provider) : Prop :=
  match evs with
  | [] => True
  | ev :: evs' =>
      calls_connect ev p = false /\ same_epoch evs' (step ev p).1
  end.

(** ** Vocabulary of the properties *)



(** The payload of an update-topic message does not decode, or the engine
    throws when it is applied. *)
Definition update_fails (payload : Payload) (p : Provider) : Prop :=
  match decodeUpdate (body payload) with
  | None => True
  | Some update => is_Some (Y_applyUpdate (doc p) update).2
  end.

(** What [flush] broadcasts for a buffer. *)
Definition combined (updates : list Uint8Array) : Uint8Array :=
  match updates with
  | [update] => update
  | _ => Y_mergeUpdates updates
  end.

(** Local edits: transactions of the application, each with the content
    it leaves and the update it fires. *)
Definition local_edits (edits : list (Doc * Uint8Array)) : list Event :=
  map (fun e => DocUpdate e.1 e.2 origin_other) edits.

(** States in which no [destroy()] has left payloads behind: as
    constructed, after any event other than a [destroy()] that cancels an
    armed flush timer, and again after a local edit that was queued for a
    throttled broadcast. *)
Inductive settled : Provider -> Prop :=
| settled_new uid d aw opts : settled (constructor uid d aw opts).1
| settled_step ev p :
    settled p ->
    ev <> CallDestroy \/ broadcastTimeout p = None ->
    settled (step ev p).1
| settled_queued d update p :
    reachable p ->
    docObserved p = true ->
    0 < throttle_of p ->
    settled (step (DocUpdate d update origin_other) p).1.

(** The document as the handling of an update-topic message that fails
    leaves it: untouched when the payload does not decode, and as
    [Y.applyUpdate] left it when that throws. *)
Definition doc_after_failure (payload : Payload) (p : Provider) : Doc :=
  match decodeUpdate (body payload) with
  | None => doc p
  | Some update => (Y_applyUpdate (doc p) update).1
  end.

(** A throttle window is open on the provider [p]: since [p0], the flush
    timer [id] was armed and [buffer] is what awaits it. *)
Record buffering (p0 p : Provider) (id : TimerId)
    (buffer : list Uint8Array) : Prop := {
  buffering_options : options p = options p0;
  buffering_userId : userId p = userId p0;
  buffering_channel : channel p = channel p0;
  buffering_observed : docObserved p = true;
  buffering_handle : broadcastTimeout p = Some id;
  buffering_timer : Timers.pending (timers p) !! id = Some Flush;
  buffering_buffer : pendingUpdates p = buffer;
}.

(** How the provider's timer handles relate to the host's pending timers:
    the pending flush timer is the one [broadcastTimeout] names, handles
    from [next] on are unused, the handle in [reconnectTimeout] was handed
    out and is no flush timer, and an armed flush timer has something to
    flush. *)
Definition timing_ok (pending : gmap nat TimerKind) (next : nat)
    (flushId reconnectId : option TimerId) (buffer : list Uint8Array) : Prop :=
  (forall id, pending !! id = Some Flush <-> flushId = Some id)
  /\ (forall id, (next <= id)%nat -> pending !! id = None)
  /\ (forall id, reconnectId = Some id ->
                 (id < next)%nat /\ pending !! id <> Some Flush)
  /\ (is_Some flushId -> buffer <> []).

Definition timers_ok (p : Provider) : Prop :=
  timing_ok (Timers.pending (timers p)) (Timers.next (timers p))
            (broadcastTimeout p) (reconnectTimeout p) (pendingUpdates p).

(** A non-empty buffer has a flush handle. *)
Definition buffer_armed (p : Provider) : Prop :=
  pendingUpdates p <> [] -> is_Some (broadcastTimeout p).

(** A method keeps a property of the provider. *)
Definition keeps (P : Provider -> Prop) (op : Op) : Prop :=
  forall p, P p -> P (op p).1.

(** ** Vocabulary of the further properties *)

(** Messages sent and timers armed. *)
Definition is_send (e : Effect) : bool :=
  match e with Send _ _ _ _ => true | _ => false end.

Definition is_setTimeout (e : Effect) : bool :=
  match e with SetTimeout _ _ _ => true | _ => false end.

Definition silent (fx : list Effect) : Prop :=
  Forall (fun e => is_send e = false /\ is_setTimeout e = false) fx.

(** Every pending reconnect timer is the one [reconnectTimeout] names. *)
Definition tracked (m : gmap nat TimerKind) (rt : option TimerId) : Prop :=
  forall id, m !! id = Some Reconnect -> rt = Some id.

Definition reconnect_tracked (p : Provider) : Prop :=
  forall id, Timers.pending (timers p) !! id = Some Reconnect ->
             reconnectTimeout p = Some id.

(** Torn down: the [channel] field is null, the document listener is off,
    reconnecting is not wanted, and none of the timers the provider armed
    (flush, reconnect) is pending. *)
Definition torn_down (p : Provider) : Prop :=
  channel p = None /\ docObserved p = false /\ shouldReconnect p = false
  /\ Timers.pending (timers p) = ∅.

(** Input that originates at remote peers. *)
Definition remote_input (ev : Event) : Prop :=
  match ev with
  | OnUpdate _ | OnAwareness _ => True
  | DocUpdate _ _ origin_remote => True
  | AwarenessUpdate _ _ origin_remote => True
  | _ => False
  end.

(** The attempt counter stays between zero and the configured maximum. *)
Definition attempts_in_range (p : Provider) : Prop :=
  0 <= reconnectAttempts p
  /\ forall m, options p ≫= maxReconnectAttempts = Some m ->
               reconnectAttempts p <= Z.max 0 m.

End provider.

(** ** A small merge engine for examples

    A document is the list of the updates applied to it, newest first; the
    empty byte array is not a well-formed update or state vector, and the
    empty diff takes two bytes as Yjs's does. *)
Module LogEngine.

Definition applyUpdate (d : list Uint8Array) (u : Uint8Array)
  : list Uint8Array * option string :=
  match u with
  | [] => (d, Some "Unexpected end of array"%string)
  | _ => (u :: d, None)
  end.

Definition encodeStateVector (d : list Uint8Array) : Uint8Array :=
  [toUint8 (Z.of_nat (length d))].

Definition encodeStateAsUpdate (d : list Uint8Array) (sv : Uint8Array)
  : string + Uint8Array :=
  match sv with
  | [] => inl "Unexpected end of array"%string
  | _ => inr (x00 :: x00 :: concat d)
  end.

Definition applyAwareness (aw : list Z) (u : Uint8Array)
  : list Z * AwarenessChanges * option string :=
  match u with
  | [] => (aw, {| added := []; updated := []; removed := [] |},
           Some "Unexpected end of array"%string)
  | b :: _ =>
      (byte_to_Z b :: aw,
       {| added := [byte_to_Z b]; updated := []; removed := [] |}, None)
  end.

Definition removeStates (aw : list Z) (clients : list Z) : list Z * list Z :=
  (List.filter (fun c => negb (bool_decide (c ∈ clients))) aw,
   List.filter (fun c => bool_decide (c ∈ aw)) clients).

#[export] Instance engine : MergeEngine := {|
  Doc := list Uint8Array;
  Awareness := list Z;
  Thrown := string;
  instanceofError := fun _ => true;
  Y_applyUpdate := applyUpdate;
  Y_encodeStateVector := encodeStateVector;
  Y_encodeStateAsUpdate := encodeStateAsUpdate;
  Y_mergeUpdates := fun updates => concat updates;
  doc_clientID := fun _ => 1;
  applyAwarenessUpdate := applyAwareness;
  encodeAwarenessUpdate := fun _ clients => map toUint8 clients;
  awareness_clients := fun aw => aw;
  removeAwarenessStates := removeStates;
|}.

Definition throttled : Options :=
  {| broadcastThrottleMs := Some 100; autoReconnect := None;
     maxReconnectAttempts := None; reconnectDelay := None;
     maxReconnectDelay := None |}.

(** A provider as constructed, without and with throttling. *)
Definition fresh : Provider := (constructor "me" [] None None).1.
Definition fresh_throttled : Provider :=
  (constructor "me" [] None (Some throttled)).1.

(** ... with a presence container holding the state of client 1. *)
Definition fresh_aware : Provider := (constructor "me" [] (Some [1]) None).1.

(** After the channel acknowledged the subscription. *)
Definition connected : Provider :=
  (step (ChannelStatus SUBSCRIBED None) fresh).1.
Definition connected_throttled : Provider :=
  (step (ChannelStatus SUBSCRIBED None) fresh_throttled).1.

(** One throttled edit, then [destroy()] before the flush timer fires ... *)
Definition destroyed : Provider :=
  (run [DocUpdate [[x01]] [x01] origin_other; CallDestroy]
       connected_throttled).1.

(** ... and [connect()] again. *)
Definition reused : Provider := (step CallConnect destroyed).1.

Definition message (text who : string) : Payload :=
  {| body := js text; sender := who |}.

End LogEngine.

(** ** An engine that throws half-way

    As [LogEngine], but an update that starts with the byte [0xff] is
    integrated up to its rest before [Y.applyUpdate] throws. *)
Module TornEngine.

Definition applyUpdate (d : list Uint8Array) (u : Uint8Array)
  : list Uint8Array * option string :=
  match u with
  | [] => (d, Some "Unexpected end of array"%string)
  | xff :: rest => (rest :: d, Some "Unexpected end of array"%string)
  | _ => (u :: d, None)
  end.

Definition engine : MergeEngine := {|
  Doc := list Uint8Array;
  Awareness := list Z;
  Thrown := string;
  instanceofError := fun _ => true;
  Y_applyUpdate := applyUpdate;
  Y_encodeStateVector := LogEngine.encodeStateVector;
  Y_encodeStateAsUpdate := LogEngine.encodeStateAsUpdate;
  Y_mergeUpdates := fun updates => concat updates;
  doc_clientID := fun _ => 1;
  applyAwarenessUpdate := LogEngine.applyAwareness;
  encodeAwarenessUpdate := fun _ clients => map toUint8 clients;
  awareness_clients := fun aw => aw;
  removeAwarenessStates := LogEngine.removeStates;
|}.

(** A connected provider on this engine, with an empty document. *)
Definition connected : @Provider engine :=
  (step (ChannelStatus SUBSCRIBED None)
        (@constructor engine "me" [] None None).1).1.

(** The bytes [0xff 0x01] from another session. *)
Definition torn_message : Payload := {| body := js "/wE="; sender := "other" |}.

End TornEngine.

(** ** More sample providers *)
Module Samples.
Import LogEngine.

(** A negative [reconnectDelay]. *)
Definition backwards : Options :=
  {| broadcastThrottleMs := None; autoReconnect := None;
     maxReconnectAttempts := None; reconnectDelay := Some (-1000);
     maxReconnectDelay := None |}.

Definition fresh_backwards : Provider :=
  (constructor "me" [] None (Some backwards)).1.

Definition backwards_failed_once : Provider :=
  (step (ChannelStatus CLOSED None) fresh_backwards).1.

(** A second session on the same room. *)
Definition other : Provider :=
  (step (ChannelStatus SUBSCRIBED None) (constructor "you" [] None None).1).1.

(** One throttled edit awaiting its flush timer. *)
Definition buffering_one : Provider :=
  (step (DocUpdate [[x01]] [x01] origin_other) connected_throttled).1.

(** One peer has sent its state vector. *)
Definition met_peer : Provider :=
  (step (OnStateVector (message "AA==" "peer-2")) connected).1.

Definition limited : Options :=
  {| broadcastThrottleMs := None; autoReconnect := None;
     maxReconnectAttempts := Some 2; reconnectDelay := None;
     maxReconnectDelay := None |}.

(** At most two reconnect attempts, and two channel errors in a row. *)
Definition failed_twice : Provider :=
  (run [ChannelStatus CHANNEL_ERROR None; ChannelStatus CHANNEL_ERROR None]
       (constructor "me" [] None (Some limited)).1).1.

(** Two listeners registered for [status], one of them twice. *)
(** The argument [emit] passes with a [status] event. *)
Definition status_args : Status := disconnected.

Definition status_listeners : EventBus.Registry :=
  EventBus.on EventBus.name_status 7%nat
    (EventBus.on EventBus.name_status 8%nat
       (EventBus.on EventBus.name_status 7%nat ∅)).

End Samples.

(** A code unit of a base64 string: letter, digit, [+], [/] or [=]. *)
Definition transport_char (c : Z) : Prop :=
  is_Some (Base64.b64_index c) \/ c = Base64.pad_char.

(* ===================================================================== *)
(** * Part II — properties *)
(* ===================================================================== *)

(** ** The transport encoding *)

Section list_by_three.
Context {A : Type} (P : list A -> Prop).
Hypothesis P0 : P [].
Hypothesis P1 : forall a, P [a].
Hypothesis P2 : forall a b, P [a; b].
Hypothesis P3 : forall a b c l, P l -> P (a :: b :: c :: l).

Lemma list_ind3 : forall l, P l.
Proof.
  assert (H : forall n l, (length l <= n)%nat -> P l).
  { induction n as [|n IH]; intros l Hl.
    - destruct l; [apply P0 | simpl in Hl; lia].
    - destruct l as [|a [|b [|c l]]]; auto.
      apply P3, IH. simpl in Hl. lia. }
  intros l. apply (H (length l)). lia.
Qed.
End list_by_three.

Module Base64Facts.
Import Base64.

(** Linear arithmetic with division and remainder by constants. *)
Ltac arith := Z.div_mod_to_equations; lia.

Lemma b64_index_char s : sextet s -> b64_index (b64_char s) = Some s.
Proof.
  unfold sextet, b64_index, b64_char. intros Hs.
  repeat (case_match; try lia; simpl in * );
    repeat match goal with
           | H : (_ && _) = _ |- _ =>
               first [apply andb_true_iff in H as [? ?]
                     |apply andb_false_iff in H as [?|?]]
           end; try (f_equal; lia); lia.
Qed.

Lemma b64_char_not_pad s : sextet s -> b64_char s <> pad_char.
Proof.
  unfold sextet, b64_char, pad_char. intros Hs.
  repeat (case_match; try lia).
Qed.

Lemma b64_char_not_whitespace s :
  sextet s -> is_ascii_whitespace (b64_char s) = false.
Proof.
  unfold sextet, b64_char, is_ascii_whitespace. intros Hs.
  repeat (case_match; try lia).
Qed.

Lemma b64_sextets_range bs :
  Forall octet bs -> Forall sextet (b64_sextets bs).
Proof.
  unfold octet, sextet.
  induction bs as [| a | a b | a b c l IH] using list_ind3; intros Hbs.
  - constructor.
  - inversion_clear Hbs. simpl.
    repeat (apply Forall_cons_2; [arith|]). constructor.
  - inversion_clear Hbs as [|? ? ? Hb]. inversion_clear Hb.
    simpl. repeat (apply Forall_cons_2; [arith|]). constructor.
  - inversion_clear Hbs as [|? ? ? Hb]. inversion_clear Hb as [|? ? ? Hc].
    inversion_clear Hc. simpl.
    repeat (apply Forall_cons_2; [arith|]). by apply IH.
Qed.

Lemma b64_decode_sextets_of bs :
  Forall octet bs -> b64_decode_sextets (b64_sextets bs) = bs.
Proof.
  unfold octet.
  induction bs as [| a | a b | a b c l IH] using list_ind3; intros Hbs.
  - reflexivity.
  - inversion_clear Hbs. simpl. f_equal. arith.
  - inversion_clear Hbs as [|? ? ? Hb]. inversion_clear Hb.
    simpl. repeat f_equal; arith.
  - inversion_clear Hbs as [|? ? ? Hb]. inversion_clear Hb as [|? ? ? Hc].
    inversion_clear Hc. simpl. rewrite IH by done.
    repeat f_equal; arith.
Qed.

(** The sextets come in groups of four, up to a final group of two or
    three that the padding completes. *)
Lemma b64_sextets_shape (bs : list Z) :
  exists q r : nat,
    length (b64_sextets bs) = (4 * q + r)%nat
    /\ final_quantum r (b64_padding (length bs)).
Proof.
  induction bs as [| a | a b | a b c l IH] using list_ind3.
  - exists 0%nat, 0%nat. split; [done | constructor].
  - exists 0%nat, 2%nat. split; [done | constructor].
  - exists 0%nat, 3%nat. split; [done | constructor].
  - destruct IH as (q & r & Hlen & Hfq).
    exists (S q), r. split; [simpl; lia |].
    replace (b64_padding (length (a :: b :: c :: l)))
      with (b64_padding (length l)); [done |].
    unfold b64_padding. f_equal. simpl length.
    replace (S (S (S (length l)))) with (length l + 1 * 3)%nat by lia.
    by rewrite Nat.Div0.mod_add.
Qed.

Lemma mod4_remainder (q r : nat) :
  (r < 4)%nat -> ((4 * q + r) mod 4 = r)%nat.
Proof.
  intros Hr. rewrite Nat.add_comm, (Nat.mul_comm 4 q), Nat.Div0.mod_add.
  by apply Nat.mod_small.
Qed.

Lemma filter_all_true {A} (f : A -> bool) (l : list A) :
  Forall (fun x => f x = true) l -> List.filter f l = l.
Proof.
  induction 1 as [|x l Hx _ IH]; simpl; [done |]. by rewrite Hx, IH.
Qed.

Lemma strip_padding_encoded (cs : list Z) (k : nat) :
  Forall (fun c => c <> pad_char) cs -> (k <= 2)%nat ->
  strip_padding (cs ++ replicate k pad_char) = cs.
Proof.
  intros Hcs Hk. unfold strip_padding. rewrite rev_app_distr.
  assert (Hrev : Forall (fun c => c <> pad_char) (rev cs)).
  { apply Forall_forall. intros c Hc. rewrite Forall_forall in Hcs.
    apply Hcs. apply list_elem_of_In. apply list_elem_of_In in Hc.
    by apply in_rev. }
  destruct k as [|[|[|k]]]; [| | | lia]; simpl.
  - destruct (rev cs) as [|c r] eqn:E; [by rewrite app_nil_r |].
    inversion_clear Hrev as [|? ? Hc _].
    apply Z.eqb_neq in Hc. rewrite Hc. by rewrite app_nil_r.
  - rewrite ?Z.eqb_refl.
    destruct (rev cs) as [|c r] eqn:E.
    + rewrite <- (rev_involutive cs), E. done.
    + inversion_clear Hrev as [|? ? Hc _].
      apply Z.eqb_neq in Hc. rewrite Hc, <- E. apply rev_involutive.
  - rewrite ?Z.eqb_refl. apply rev_involutive.
Qed.

Lemma atob_b64_encode (bs : list Z) :
  Forall octet bs -> atob (b64_encode bs) = Some bs.
Proof.
  intros Hbs. pose proof (b64_sextets_range bs Hbs) as Hss.
  destruct (b64_sextets_shape bs) as (q & r & Hlen & Hfq).
  assert (Hpad : (b64_padding (length bs) <= 2)%nat) by (inversion Hfq; lia).
  assert (Hchars : Forall (fun c => c <> pad_char) (map b64_char (b64_sextets bs))).
  { apply Forall_map. eapply Forall_impl; [exact Hss |].
    intros s Hs. by apply b64_char_not_pad. }
  unfold atob, b64_encode.
  rewrite filter_all_true; cycle 1.
  { apply Forall_app. split.
    - apply Forall_map. eapply Forall_impl; [exact Hss |].
      intros s Hs. simpl. by rewrite b64_char_not_whitespace.
    - apply Forall_replicate. reflexivity. }
  assert (Hmod : ((length (map b64_char (b64_sextets bs)
                     ++ replicate (b64_padding (length bs)) pad_char)
                   mod 4) =? 0)%nat = true).
  { rewrite length_app, length_map, length_replicate, Hlen.
    apply Nat.eqb_eq. inversion Hfq.
    - replace (4 * q + 0 + 0)%nat with (4 * q + 0)%nat by lia.
      apply mod4_remainder; lia.
    - replace (4 * q + 2 + 2)%nat with (4 * S q + 0)%nat by lia.
      apply mod4_remainder; lia.
    - replace (4 * q + 3 + 1)%nat with (4 * S q + 0)%nat by lia.
      apply mod4_remainder; lia. }
  rewrite Hmod, strip_padding_encoded by done.
  assert (Hone : ((length (map b64_char (b64_sextets bs)) mod 4) =? 1)%nat
                 = false).
  { rewrite length_map, Hlen. apply Nat.eqb_neq.
    inversion Hfq; rewrite mod4_remainder; lia. }
  rewrite Hone.
  change (map b64_char (b64_sextets bs)) with (b64_char <$> b64_sextets bs).
  rewrite mapM_fmap_Forall_Some; cycle 1.
  { eapply Forall_impl; [exact Hss |]. intros s Hs. by apply b64_index_char. }
  simpl. by rewrite b64_decode_sextets_of.
Qed.

Lemma btoa_octets (bs : list Z) :
  Forall octet bs -> btoa bs = Some (b64_encode bs).
Proof.
  intros Hbs. unfold btoa.
  replace (forallb _ bs) with true; [done |].
  symmetry. apply forallb_forall. intros c Hc.
  rewrite Forall_forall in Hbs. apply list_elem_of_In, Hbs in Hc.
  unfold octet in Hc. apply andb_true_iff. split; apply Z.leb_le; lia.
Qed.

End Base64Facts.

Section transport.
Import Base64 Base64Facts.

Lemma chunkSize_pos : (0 < chunkSize)%nat.
Proof. unfold chunkSize. lia. Qed.

Lemma encodeUpdate_loop_spec (update : Uint8Array) :
  forall (fuel i : nat) (binary : JSString),
    (length update - i <= fuel)%nat ->
    encodeUpdate_loop fuel update i binary
    = binary ++ fromCharCode_apply (drop i update).
Proof.
  pose proof chunkSize_pos as Hpos.
  induction fuel as [|fuel IH]; intros i binary Hfuel; simpl.
  - rewrite drop_ge by lia. by rewrite app_nil_r.
  - destruct (Nat.ltb_spec i (length update)) as [Hlt | Hge].
    + rewrite IH by lia. unfold subarray, fromCharCode_apply.
      replace (i + chunkSize - i)%nat with chunkSize by lia.
      rewrite <- app_assoc, <- map_app. do 2 f_equal.
      rewrite <- drop_drop. apply take_drop.
    + rewrite drop_ge by lia. by rewrite app_nil_r.
Qed.

Lemma byte_to_Z_octet (b : byte) : octet (byte_to_Z b).
Proof.
  unfold octet, byte_to_Z. pose proof (Byte.to_N_bounded b). lia.
Qed.

Lemma toUint8_byte_to_Z (b : byte) : toUint8 (fromCharCode (byte_to_Z b)) = b.
Proof.
  pose proof (byte_to_Z_octet b) as Hb. unfold octet in Hb.
  unfold toUint8, fromCharCode.
  rewrite (Z.mod_small (byte_to_Z b) 65536) by lia.
  rewrite Z.mod_small by lia. unfold byte_to_Z.
  rewrite N2Z.id, Byte.of_to_N. reflexivity.
Qed.

Lemma decodeUpdate_loop_prefix (binary : JSString) (bytes : Uint8Array) :
  length bytes = length binary ->
  forall k : nat, (k <= length binary)%nat ->
    fold_left (fun bytes i => <[i := toUint8 (nth i binary 0)]> bytes)
              (seq 0 k) bytes
    = (toUint8 <$> take k binary) ++ drop k bytes.
Proof.
  intros Hlen. induction k as [|k IH]; intros Hk; [done |].
  rewrite seq_S, fold_left_app, IH by lia. simpl.
  destruct (lookup_lt_is_Some_2 binary k) as [c Hc]; [lia |].
  destruct (lookup_lt_is_Some_2 bytes k) as [b Hb]; [lia |].
  rewrite (take_S_r _ _ _ Hc), fmap_app, (drop_S _ _ _ Hb).
  rewrite nth_lookup, Hc. simpl.
  rewrite <- app_assoc. simpl.
  replace k with (length (toUint8 <$> take k binary) + 0)%nat at 1
    by (rewrite length_fmap, length_take; lia).
  by rewrite insert_app_r.
Qed.

Lemma decodeUpdate_loop_spec (binary : JSString) :
  decodeUpdate_loop binary (replicate (length binary) x00)
  = toUint8 <$> binary.
Proof.
  unfold decodeUpdate_loop.
  rewrite decodeUpdate_loop_prefix by (rewrite ?length_replicate; lia).
  rewrite firstn_all, drop_ge by (rewrite length_replicate; lia).
  apply app_nil_r.
Qed.

(** C9: the base64 transport encoding round-trips: for every byte array
    [u], of any length (empty, or longer than the 32768-byte chunk),
    [encodeUpdate u] yields a string and [decodeUpdate] of that string is
    [u] again. *)
Theorem decodeUpdate_encodeUpdate (u : Uint8Array) :
  exists encoded : JSString,
    encodeUpdate u = Some encoded /\ decodeUpdate encoded = Some u.
Proof.
  exists (b64_encode (fromCharCode_apply u)).
  assert (Hoct : Forall octet (fromCharCode_apply u)).
  { apply Forall_map, Forall_forall. intros b _.
    pose proof (byte_to_Z_octet b) as Hb. unfold octet in *.
    unfold fromCharCode. rewrite Z.mod_small; lia. }
  split.
  - unfold encodeUpdate.
    rewrite encodeUpdate_loop_spec by lia. simpl.
    by apply btoa_octets.
  - unfold decodeUpdate. rewrite atob_b64_encode by done. simpl.
    rewrite decodeUpdate_loop_spec. f_equal.
    unfold fromCharCode_apply.
    change (map ?f u) with (f <$> u). rewrite <- list_fmap_compose.
    rewrite <- (list_fmap_id u) at 2. apply list_fmap_ext.
    intros i b _. apply toUint8_byte_to_Z.
Qed.

End transport.

(** ** The provider *)

Section provider_facts.
Context `{ME : MergeEngine}.

(** Case analysis on the innermost [match] of the goal. *)
Ltac break_match :=
  match goal with
  | |- context [match ?x with _ => _ end] =>
      lazymatch x with
      | context [match _ with _ => _ end] => fail
      | _ => destruct x eqn:?
      end
  end.

Ltac unfold_ops :=
  unfold step, timer_fires, flush, reconnect_callback, subscribe_callback,
    scheduleReconnect, connect, destroy, handleStateVector,
    handleRemoteUpdate, handleRemoteAwareness, awareness_update_event,
    handleAwarenessUpdate, broadcastAwarenessUpdate, doc_update_event,
    handleDocUpdate, queueBroadcast, sendStateVector, broadcastUpdate,
    setStatus, emit, clearTimeout, setTimeout, andThen, modify, effect, skip
    in *.

Ltac run_ops := unfold_ops; repeat (simpl; break_match); simpl.

Lemma scheduleReconnect_delay (p : Provider) (id : TimerId)
    (k : TimerKind) (delay : JSNumber) :
  SetTimeout id k delay ∈ (scheduleReconnect p).2 ->
  delay = Math_min (js_mul (baseDelay_of p) (Math_pow2 (reconnectAttempts p)))
                   (maxDelay_of p)
  /\ reconnectAttempts (scheduleReconnect p).1 = reconnectAttempts p + 1.
Proof.
  unfold baseDelay_of, maxDelay_of. run_ops; intros Hin;
    repeat match goal with
           | H : _ ∈ [] |- _ => by apply not_elem_of_nil in H
           | H : _ ∈ _ :: _ |- _ => apply elem_of_cons in H as [H | H]
           end; try discriminate; by simplify_eq.
Qed.

(** *** The arithmetic of the backoff *)

Lemma double_range_pos : 0 < double_range.
Proof. reflexivity. Qed.

Lemma js_mul_one (b : Z) : js_mul b (Finite 1) = Finite b.
Proof.
  unfold js_mul. rewrite Z.mul_1_r.
  destruct (Z.ltb_spec (Z.abs b) double_range) as [Hlt | Hge]; [| done].
  destruct (Z.leb_spec double_range (Z.abs b)); [lia | done].
Qed.

Lemma Math_min_not_above (x : JSNumber) (cap : Z) :
  ~ js_exceeds (Math_min x cap) cap.
Proof. destruct x; simpl; lia. Qed.

Lemma backoff_exact (b k cap : Z) :
  0 <= b -> 0 <= k -> cap < double_range -> 0 < b \/ k < 1024 ->
  Math_min (js_mul b (Math_pow2 k)) cap = Finite (Z.min (b * 2 ^ k) cap).
Proof.
  intros Hb Hk Hcap Hcase. unfold Math_pow2.
  assert (Hpow : 0 < 2 ^ k) by (apply Z.pow_pos_nonneg; lia).
  destruct (Z.ltb_spec k 1024) as [Hlt | Hge]; simpl.
  - destruct (_ && _) eqn:Hover; [| done].
    apply andb_true_iff in Hover as [_ Hover]. apply Z.leb_le in Hover.
    pose proof double_range_pos.
    assert (Hr : 0 < b * 2 ^ k) by nia.
    apply Z.ltb_lt in Hr as Hr'. rewrite Hr'. simpl. f_equal. lia.
  - assert (Hpos : 0 < b) by lia.
    assert (Hne : (b =? 0) = false) by (apply Z.eqb_neq; lia).
    apply Z.ltb_lt in Hpos as Hpos'.
    rewrite Hne, Hpos'. simpl. f_equal.
    assert (double_range <= 2 ^ k)
      by (unfold double_range; apply Z.pow_le_mono_r; lia).
    nia.
Qed.

Lemma backoff_first (b cap : Z) :
  Math_min (js_mul b (Math_pow2 0)) cap = Finite (Z.min b cap).
Proof. change (Math_pow2 0) with (Finite 1). by rewrite js_mul_one. Qed.

Lemma backoff_zero (k cap : Z) :
  Math_min (js_mul 0 (Math_pow2 k)) cap
  = if k <? 1024 then Finite (Z.min 0 cap) else NaN.
Proof. unfold Math_pow2. by destruct (k <? 1024). Qed.

(** C4, as amended: when [scheduleReconnect] arms a timer at attempt count
    [k >= 0], its delay is
    [Math.min(reconnectDelay * Math.pow(2, k), maxReconnectDelay)], with
    1000 and 30000 for absent options, and the attempt count becomes
    [k + 1]; the delay never exceeds the maximum.  For a positive
    [reconnectDelay], and for [reconnectDelay] zero up to attempt 1023, the
    delay is the integer [min (reconnectDelay * 2^k) maxReconnectDelay] and
    a later such attempt never waits less than an earlier one; for
    [reconnectDelay] zero the delay is [NaN] from attempt 1024 on. *)
Theorem reconnect_backoff (p : Provider) (id : TimerId) (k : TimerKind)
    (delay : JSNumber) :
  SetTimeout id k delay ∈ (scheduleReconnect p).2 ->
  0 <= reconnectAttempts p ->
  let base := default 1000 (options p ≫= reconnectDelay) in
  let cap := default 30000 (options p ≫= maxReconnectDelay) in
  delay = Math_min (js_mul base (Math_pow2 (reconnectAttempts p))) cap
  /\ reconnectAttempts (scheduleReconnect p).1 = reconnectAttempts p + 1
  /\ ~ js_exceeds delay cap
  /\ (0 <= base -> cap < double_range ->
      0 < base \/ reconnectAttempts p < 1024 ->
      delay = Finite (Z.min (base * 2 ^ reconnectAttempts p) cap)
      /\ forall (q : Provider) (id' : TimerId) (k' : TimerKind)
                (delay' : JSNumber),
          options q = options p ->
          reconnectAttempts p <= reconnectAttempts q ->
          0 < base \/ reconnectAttempts q < 1024 ->
          SetTimeout id' k' delay' ∈ (scheduleReconnect q).2 ->
          js_le delay delay')
  /\ (base = 0 -> 1024 <= reconnectAttempts p -> delay = NaN).
Proof.
  intros Harmed Hk base cap.
  apply scheduleReconnect_delay in Harmed as [-> Hnext].
  unfold baseDelay_of, maxDelay_of. fold base cap.
  split; [done |]. split; [done |]. split; [apply Math_min_not_above |].
  split.
  - intros Hbase Hcap Hcase. rewrite backoff_exact by done. split; [done |].
    intros q id' k' delay' Hopts Hlater Hcase' Harmed'.
    apply scheduleReconnect_delay in Harmed' as [-> _].
    unfold baseDelay_of, maxDelay_of. rewrite Hopts. fold base cap.
    rewrite backoff_exact by (done || lia). simpl.
    assert (2 ^ reconnectAttempts p <= 2 ^ reconnectAttempts q)
      by (apply Z.pow_le_mono_r; lia).
    assert (base * 2 ^ reconnectAttempts p <= base * 2 ^ reconnectAttempts q)
      by (apply Z.mul_le_mono_nonneg_l; lia).
    lia.
  - intros -> Hlate. rewrite backoff_zero.
    by destruct (Z.ltb_spec (reconnectAttempts p) 1024); [lia |].
Qed.


(** C3: an update-topic or awareness-topic message whose sender is the
    provider's own session is dropped: nothing is applied to the document
    or the presence container, no event is emitted, nothing is sent. *)
Theorem self_filter (payload : Payload) (p : Provider) :
  sender payload = userId p ->
  handleRemoteUpdate payload p = (p, [])
  /\ handleRemoteAwareness payload p = (p, []).
Proof.
  intros Hself. unfold handleRemoteUpdate, handleRemoteAwareness, skip.
  destruct (decide (sender payload = userId p)); [| done].
  by destruct (awareness p).
Qed.

Lemma set_doc_same (p : Provider) : set_doc (doc p) p = p.
Proof. by destruct p. Qed.

Lemma run_cons (ev : Event) (evs : list Event) (p : Provider) :
  run (ev :: evs) p
  = ((run evs (step ev p).1).1, (step ev p).2 ++ (run evs (step ev p).1).2).
Proof.
  simpl. unfold andThen.
  destruct (step ev p) as [p1 fx1]. simpl. by destruct (run evs p1).
Qed.

Lemma run_app (evs1 evs2 : list Event) (p : Provider) :
  run (evs1 ++ evs2) p
  = ((run evs2 (run evs1 p).1).1,
     (run evs1 p).2 ++ (run evs2 (run evs1 p).1).2).
Proof.
  revert p. induction evs1 as [|ev evs1 IH]; intros p.
  - simpl. unfold skip. simpl. by destruct (run evs2 p).
  - rewrite <- app_comm_cons, run_cons, IH, (run_cons ev evs1).
    cbn [fst snd]. by rewrite app_assoc.
Qed.

(** C8, as amended: an update-topic payload from another session that
    does not decode, or that the engine refuses, raises exactly one [error]
    event and nothing else; the provider changes none of its own fields
    and does nothing to the document besides the call of [Y.applyUpdate],
    so the document is untouched when the payload does not decode and as
    the throwing [Y.applyUpdate] left it otherwise; the handler returns,
    so the events that follow are processed from that state. *)
Theorem remote_update_failure (payload : Payload) (p : Provider) :
  sender payload <> userId p ->
  update_fails payload p ->
  let p' := set_doc (doc_after_failure payload p) p in
  exists e : ErrorValue,
    handleRemoteUpdate payload p = (p', [Emit (error_event e)])
    /\ (decodeUpdate (body payload) = None -> p' = p)
    /\ forall evs : list Event,
        run (OnUpdate payload :: evs) p
        = ((run evs p').1, Emit (error_event e) :: (run evs p').2).
Proof.
  intros Hother Hfails p'.
  assert (H : exists e, handleRemoteUpdate payload p
                        = (p', [Emit (error_event e)])).
  { subst p'. unfold update_fails in Hfails.
    unfold handleRemoteUpdate, doc_after_failure.
    destruct (decide (sender payload = userId p)); [done |].
    destruct (decodeUpdate (body payload)) as [update|].
    - destruct (Y_applyUpdate (doc p) update) as [d' [t|]] eqn:Happly;
        [| by destruct Hfails].
      eexists. unfold_ops. simpl. by destruct (docObserved p).
    - rewrite set_doc_same. by eexists. }
  destruct H as [e He]. exists e. split; [done |]. split.
  - intros Hbad. subst p'. unfold doc_after_failure. rewrite Hbad.
    apply set_doc_same.
  - intros evs. rewrite run_cons. simpl step. by rewrite He.
Qed.

(** C6, as amended: on the first delivery in an epoch of a state-vector
    message from another session, when the payload decodes and the engine
    computes the diff, a provider holding a channel replies with its own
    state vector, after the diff when that is longer than two bytes and
    alone otherwise; when the payload does not decode it raises one
    [error] event and sends nothing. *)
Theorem state_vector_reply (payload : Payload) (p : Provider) (ch : Channel) :
  sender payload <> userId p ->
  sender payload ∉ syncedPeers p ->
  channel p = Some ch ->
  let reply :=
    Send ch STATE_VECTOR_EVENT (wire (Y_encodeStateVector (doc p))) (userId p) in
  (forall remoteStateVector diff,
      decodeUpdate (body payload) = Some remoteStateVector ->
      Y_encodeStateAsUpdate (doc p) remoteStateVector = inr diff ->
      (handleStateVector payload p).2
      = ComputeDiff remoteStateVector
          :: (if (2 <? length diff)%nat
              then [Send ch UPDATE_EVENT (wire diff) (userId p); reply]
              else [reply]))
  /\ (decodeUpdate (body payload) = None ->
      (handleStateVector payload p).2
      = [Emit (error_event (Caught InvalidCharacterError))]).
Proof.
  intros Hother Hfirst Hch reply. unfold handleStateVector.
  destruct (decide (sender payload = userId p)); [done |].
  destruct (decide (sender payload ∈ syncedPeers p)); [done |].
  split.
  - intros sv diff Hdecode Hdiff. unfold_ops. simpl.
    rewrite Hdecode. simpl. rewrite Hdiff.
    destruct (2 <? length diff)%nat; simpl; rewrite Hch; simpl;
      rewrite ?Hch; reflexivity.
  - intros Hdecode. unfold_ops. simpl. by rewrite Hdecode.
Qed.

(** *** The Synced-Peer Set within an epoch *)

Lemma handleStateVector_marks (payload : Payload) (p : Provider) :
  sender payload <> userId p ->
  syncedPeers (handleStateVector payload p).1
  = {[sender payload]} ∪ syncedPeers p.
Proof.
  intros Hother. unfold handleStateVector.
  destruct (decide (sender payload = userId p)); [done |].
  destruct (decide (sender payload ∈ syncedPeers p)) as [Hin | Hout].
  - unfold skip. simpl. symmetry. apply subseteq_union_1_L.
    by apply singleton_subseteq_l.
  - run_ops; reflexivity.
Qed.

Lemma handleStateVector_ignored (payload : Payload) (p : Provider) :
  sender payload ∈ syncedPeers p ->
  handleStateVector payload p = (p, []).
Proof.
  intros Hin. unfold handleStateVector, skip.
  destruct (decide (sender payload = userId p)); [done |].
  by destruct (decide (sender payload ∈ syncedPeers p)).
Qed.

Lemma step_keeps_peers (ev : Event) (p : Provider) :
  calls_connect ev p = false ->
  syncedPeers p ⊆ syncedPeers (step ev p).1.
Proof.
  unfold calls_connect. destruct ev; try discriminate; intros Hno;
    run_ops; try discriminate; set_solver.
Qed.

Lemma run_keeps_peers (evs : list Event) (p : Provider) :
  same_epoch evs p -> syncedPeers p ⊆ syncedPeers (run evs p).1.
Proof.
  revert p. induction evs as [|ev evs IH]; intros p Hepoch.
  - done.
  - destruct Hepoch as [Hno Hepoch]. rewrite run_cons. simpl.
    etrans; [by apply step_keeps_peers | by apply IH].
Qed.

Lemma connect_clears_peers (p : Provider) : syncedPeers (connect p).1 = ∅.
Proof. reflexivity. Qed.

(** C1: once a state-vector message of a peer (not the provider itself)
    has been delivered, a second one from the same peer within the epoch
    (no event in between calls [connect()]) changes nothing, computes no
    diff and sends nothing. *)
Theorem state_vector_second_delivery (first second : Payload)
    (between : list Event) (p : Provider) :
  sender first <> userId p ->
  sender second = sender first ->
  same_epoch between (handleStateVector first p).1 ->
  let p' := (run between (handleStateVector first p).1).1 in
  handleStateVector second p' = (p', []).
Proof.
  intros Hother Hsame Hepoch p'.
  apply handleStateVector_ignored. rewrite Hsame.
  apply (run_keeps_peers _ _ Hepoch).
  rewrite handleStateVector_marks by done. set_solver.
Qed.

(** C10: the sender of a state-vector message is marked as synced before
    its payload is decoded: when the payload of a message from another
    session does not decode, the handler raises an [error] event and the
    sender is in the Synced-Peer Set all the same; every later
    state-vector message of that sender, whatever its payload, is ignored
    for the rest of the epoch, until [connect()] empties the set. *)
Theorem malformed_state_vector_marks_peer (payload : Payload) (p : Provider) :
  sender payload <> userId p ->
  sender payload ∉ syncedPeers p ->
  decodeUpdate (body payload) = None ->
  let p1 := (handleStateVector payload p).1 in
  (handleStateVector payload p).2
  = [Emit (error_event (Caught InvalidCharacterError))]
  /\ syncedPeers p1 = {[sender payload]} ∪ syncedPeers p
  /\ (forall (later : Payload) (between : list Event),
        sender later = sender payload ->
        same_epoch between p1 ->
        handleStateVector later (run between p1).1 = ((run between p1).1, []))
  /\ (forall between : list Event,
        syncedPeers (connect (run between p1).1).1 = ∅).
Proof.
  intros Hother Hfirst Hdecode p1. split; [| split; [| split]].
  - unfold handleStateVector.
    destruct (decide (sender payload = userId p)); [done |].
    destruct (decide (sender payload ∈ syncedPeers p)); [done |].
    unfold_ops. simpl. by rewrite Hdecode.
  - by apply handleStateVector_marks.
  - intros later between Hsame Hepoch.
    apply handleStateVector_ignored. rewrite Hsame.
    apply (run_keeps_peers _ _ Hepoch). unfold p1.
    rewrite handleStateVector_marks by done. set_solver.
  - intros between. apply connect_clears_peers.
Qed.

(** *** The flush timer and the Pending Update Buffer *)

Lemma timing_ok_buffer m n bt rt buf buf' :
  timing_ok m n bt rt buf -> (is_Some bt -> buf' <> []) ->
  timing_ok m n bt rt buf'.
Proof. intros (? & ? & ? & ?) ?. split; [done | split; [done | split; done]]. Qed.

Lemma timing_ok_arm_flush m n rt buf buf' :
  timing_ok m n None rt buf -> buf' <> [] ->
  timing_ok (<[n := Flush]> m) (S n) (Some n) rt buf'.
Proof.
  intros (Hflush & Hfresh & Hreconnect & _) Hbuf.
  split; [| split; [| split]].
  - intros id. destruct (decide (n = id)) as [-> | Hne].
    + by rewrite lookup_insert_eq.
    + rewrite lookup_insert_ne by done. split.
      * intros H%Hflush. discriminate.
      * intros [= ?]. done.
  - intros id Hid. rewrite lookup_insert_ne by lia. apply Hfresh. lia.
  - intros id [Hlt Hno]%Hreconnect. split; [lia |].
    by rewrite lookup_insert_ne by lia.
  - done.
Qed.

Lemma timing_ok_arm_reconnect m n bt rt buf :
  timing_ok m n bt rt buf ->
  timing_ok (<[n := Reconnect]> m) (S n) bt (Some n) buf.
Proof.
  intros (Hflush & Hfresh & Hreconnect & Hbuf).
  split; [| split; [| split]].
  - intros id. destruct (decide (n = id)) as [-> | Hne].
    + rewrite lookup_insert_eq. split; [discriminate |].
      intros Hbt%Hflush. rewrite Hfresh in Hbt by lia. discriminate.
    + rewrite lookup_insert_ne by done. apply Hflush.
  - intros id Hid. rewrite lookup_insert_ne by lia. apply Hfresh. lia.
  - intros id [= <-]. split; [lia |].
    rewrite lookup_insert_eq. discriminate.
  - done.
Qed.

(** A pending timer that is no flush timer goes away. *)
Lemma timing_ok_delete m n bt rt buf id :
  timing_ok m n bt rt buf -> m !! id <> Some Flush ->
  timing_ok (delete id m) n bt rt buf.
Proof.
  intros (Hflush & Hfresh & Hreconnect & Hbuf) Hid.
  split; [| split; [| split]].
  - intros j. rewrite lookup_delete. case_decide as Hj.
    + subst j. split; [discriminate |]. intros Hbt%Hflush. done.
    + apply Hflush.
  - intros j Hj. rewrite lookup_delete. case_decide; [done |]. by apply Hfresh.
  - intros j [Hlt Hno]%Hreconnect. split; [done |].
    rewrite lookup_delete. by case_decide.
  - done.
Qed.

(** The flush timer goes away, fired or cleared. *)
Lemma timing_ok_delete_flush m n id rt buf buf' :
  timing_ok m n (Some id) rt buf ->
  timing_ok (delete id m) n None rt buf'.
Proof.
  intros (Hflush & Hfresh & Hreconnect & Hbuf).
  split; [| split; [| split]].
  - intros j. rewrite lookup_delete. case_decide as Hj.
    + done.
    + split; [| discriminate]. intros [= ?]%Hflush. done.
  - intros j Hj. rewrite lookup_delete. case_decide; [done |]. by apply Hfresh.
  - intros j [Hlt Hno]%Hreconnect. split; [done |].
    rewrite lookup_delete. by case_decide.
  - intros [? [=]].
Qed.

Lemma timing_ok_forget_reconnect m n bt rt buf :
  timing_ok m n bt rt buf -> timing_ok m n bt None buf.
Proof.
  intros (? & ? & ? & ?). split; [done | split; [done | split; done]].
Qed.

Lemma timing_ok_reconnect_handle m n bt id buf :
  timing_ok m n bt (Some id) buf -> m !! id <> Some Flush.
Proof. intros (_ & _ & Hreconnect & _). by apply Hreconnect. Qed.

Lemma timing_ok_flush_handle m n bt rt buf id :
  timing_ok m n bt rt buf -> m !! id = Some Flush -> bt = Some id.
Proof. intros (Hflush & _) ?. by apply Hflush. Qed.

Lemma keeps_andThen P (a b : Op) :
  keeps P a -> keeps P b -> keeps P (andThen a b).
Proof.
  intros Ha Hb p Hp. unfold andThen.
  specialize (Ha p Hp). destruct (a p) as [p1 fx1]. simpl in Ha.
  specialize (Hb p1 Ha). by destruct (b p1).
Qed.

Ltac timing_by_cases := intros p; unfold timers_ok; run_ops; done.

Lemma keeps_sendStateVector : keeps timers_ok sendStateVector.
Proof. timing_by_cases. Qed.
Lemma keeps_connect : keeps timers_ok connect.
Proof. timing_by_cases. Qed.
Lemma keeps_handleStateVector payload :
  keeps timers_ok (handleStateVector payload).
Proof. timing_by_cases. Qed.
Lemma keeps_handleRemoteUpdate payload :
  keeps timers_ok (handleRemoteUpdate payload).
Proof. timing_by_cases. Qed.
Lemma keeps_handleRemoteAwareness payload :
  keeps timers_ok (handleRemoteAwareness payload).
Proof. timing_by_cases. Qed.
Lemma keeps_awareness_update_event changes origin :
  keeps timers_ok (awareness_update_event changes origin).
Proof. timing_by_cases. Qed.

Ltac use_eqns :=
  repeat match goal with
         | H : ?f ?p = _ |- context [?f ?p] => rewrite H
         end.

Lemma append_not_nil {A} (l : list A) (x : A) : l ++ [x] <> [].
Proof. by destruct l. Qed.

Lemma keeps_queueBroadcast u : keeps timers_ok (queueBroadcast u).
Proof.
  intros p. unfold timers_ok. run_ops; intros Hok; use_eqns; try done.
  - eapply timing_ok_buffer; [done |]. intros _. apply append_not_nil.
  - eapply timing_ok_arm_flush; [done |]. apply append_not_nil.
Qed.

Lemma keeps_timer_fires id : keeps timers_ok (timer_fires id).
Proof.
  intros p. unfold timers_ok, timer_fires.
  destruct (Timers.pending (timers p) !! id) as [[|]|] eqn:Hid; [| | done].
  - intros Hok.
    pose proof (timing_ok_flush_handle _ _ _ _ _ _ Hok Hid) as Hbt.
    rewrite Hbt in Hok.
    run_ops; by eapply timing_ok_delete_flush.
  - intros Hok. run_ops; apply timing_ok_delete; try done; by rewrite Hid.
Qed.

Lemma keeps_scheduleReconnect : keeps timers_ok scheduleReconnect.
Proof.
  intros p. unfold timers_ok. run_ops; intros Hok; use_eqns; try done.
  - eapply timing_ok_arm_reconnect with (rt := None).
    apply timing_ok_forget_reconnect with (rt := Some n).
    apply timing_ok_delete; [done |].
    by eapply timing_ok_reconnect_handle.
  - by eapply timing_ok_arm_reconnect.
Qed.

Lemma keeps_subscribe_callback st err :
  keeps timers_ok (subscribe_callback st err).
Proof.
  pose proof keeps_scheduleReconnect as Hsched.
  destruct st; unfold subscribe_callback;
    repeat (apply keeps_andThen; [by timing_by_cases |]);
    first [done | by timing_by_cases].
Qed.

Lemma timing_ok_destroy m n bt rt buf :
  timing_ok m n bt rt buf ->
  timing_ok (from_option (fun id => delete id) id rt
               (from_option (fun id => delete id) id bt m))
            n None None buf.
Proof.
  intros Hok. destruct bt as [b|], rt as [r|]; simpl.
  - apply timing_ok_delete.
    + apply timing_ok_forget_reconnect with (rt := Some r).
      by eapply timing_ok_delete_flush.
    + rewrite lookup_delete. case_decide; [done |].
      by eapply timing_ok_reconnect_handle.
  - by eapply timing_ok_delete_flush.
  - apply timing_ok_delete; [| by eapply timing_ok_reconnect_handle].
    by apply timing_ok_forget_reconnect with (rt := Some r).
  - done.
Qed.

Lemma keeps_destroy : keeps timers_ok destroy.
Proof.
  intros p Hok. apply timing_ok_destroy in Hok. revert Hok.
  unfold timers_ok. run_ops; simplify_eq; use_eqns; done.
Qed.

Lemma keeps_step ev : keeps timers_ok (step ev).
Proof.
  destruct ev; simpl.
  - apply keeps_connect.
  - apply keeps_destroy.
  - apply keeps_subscribe_callback.
  - apply keeps_handleStateVector.
  - apply keeps_handleRemoteUpdate.
  - apply keeps_handleRemoteAwareness.
  - apply keeps_andThen; [by timing_by_cases |].
    intros p. unfold doc_update_event, handleDocUpdate.
    destruct (docObserved p), origin; try done. apply keeps_queueBroadcast.
  - apply keeps_andThen; [by timing_by_cases |].
    apply keeps_awareness_update_event.
  - apply keeps_timer_fires.
Qed.

Lemma reachable_timers_ok p : reachable p -> timers_ok p.
Proof.
  induction 1 as [uid d aw opts | ev p _ IH].
  - unfold timers_ok, timing_ok. simpl. split; [| split; [| split]].
    + intros id. rewrite lookup_empty. split; discriminate.
    + intros id _. apply lookup_empty.
    + intros id [=].
    + intros [? [=]].
  - by apply keeps_step.
Qed.

Ltac buffer_by_cases :=
  intros p; unfold buffer_armed; run_ops; simplify_eq; use_eqns;
  try done; eauto.

Lemma step_buffer_armed ev :
  ev <> CallDestroy -> keeps buffer_armed (step ev).
Proof.
  intros Hev. destruct ev; try done; buffer_by_cases.
Qed.

Lemma queued_edit_armed (d : Doc) (update : Uint8Array) (p : Provider) :
  docObserved p = true -> 0 < throttle_of p ->
  is_Some (broadcastTimeout (step (DocUpdate d update origin_other) p).1).
Proof.
  intros Hobs Hthrottle. apply Z.ltb_lt in Hthrottle as Hlt.
  assert (Hle : (throttle_of p <=? 0) = false) by (apply Z.leb_gt; lia).
  revert Hobs Hle Hlt. run_ops; intros; simplify_eq; try lia;
    try (change (throttle_of (set_doc d p)) with (throttle_of p) in *;
         congruence);
    repeat match goal with
           | H : broadcastTimeout _ = Some _ |- _ => rewrite H
           end; eauto.
Qed.

Lemma destroy_keeps_pending (p : Provider) :
  pendingUpdates (destroy p).1 = pendingUpdates p.
Proof. run_ops; done. Qed.

Lemma settled_buffer_armed p : settled p -> buffer_armed p.
Proof.
  induction 1 as [uid d aw opts | ev p _ IH Hev | d update p _ Hobs Hthrottle].
  - intros Hbuf. by destruct Hbuf.
  - assert (Hcase : ev = CallDestroy \/ ev <> CallDestroy)
      by (destruct ev; auto; right; discriminate).
    destruct Hcase as [-> | Hother].
    + destruct Hev as [Hev | Hnone]; [done |].
      intros Hbuf. simpl in Hbuf. rewrite destroy_keeps_pending in Hbuf.
      destruct (IH Hbuf) as [id Hid]. congruence.
    + by apply step_buffer_armed.
  - intros _. by apply queued_edit_armed.
Qed.

Lemma reachable_run (evs : list Event) (p : Provider) :
  reachable p -> reachable (run evs p).1.
Proof.
  revert p. induction evs as [|ev evs IH]; intros p Hp; [done |].
  rewrite run_cons. simpl. apply IH. by constructor.
Qed.

Lemma destroy_disarms (p : Provider) :
  broadcastTimeout (destroy p).1 = None
  /\ pendingUpdates (destroy p).1 = pendingUpdates p.
Proof. run_ops; done. Qed.

(** C7, as amended: at every reachable point an armed flush timer means
    a non-empty Pending Update Buffer, and the converse holds at every
    settled point, that is everywhere except between a [destroy()] that
    cancelled an armed flush timer and the next local edit queued for a
    throttled broadcast; [destroy()] cancels the flush timer and leaves
    the buffer as it is, so after a [destroy()] that cancelled an armed
    flush timer the buffer is not empty and no flush timer is armed. *)
Theorem flush_timer_and_buffer (p : Provider) :
  reachable p ->
  (Timers.armed Flush (timers p) -> pendingUpdates p <> [])
  /\ (settled p -> pendingUpdates p <> [] -> Timers.armed Flush (timers p))
  /\ ~ Timers.armed Flush (timers (destroy p).1)
  /\ pendingUpdates (destroy p).1 = pendingUpdates p
  /\ (Timers.armed Flush (timers p) -> pendingUpdates (destroy p).1 <> []).
Proof.
  intros Hp. pose proof (reachable_timers_ok p Hp) as Hok.
  assert (Harmed : Timers.armed Flush (timers p) -> pendingUpdates p <> []).
  { intros [id Hid]. destruct Hok as (Hflush & _ & _ & Hbuf).
    apply Hbuf. exists id. by apply Hflush. }
  split; [done |]. split; [| split; [| split]].
  - intros Hsettled Hbuf. apply settled_buffer_armed in Hsettled.
    destruct (Hsettled Hbuf) as [id Hid]. exists id.
    destruct Hok as (Hflush & _). by apply Hflush.
  - intros [id Hid].
    pose proof (keeps_destroy p Hok) as (Hflush & _).
    apply Hflush in Hid. destruct (destroy_disarms p) as [Hnone _].
    rewrite Hnone in Hid. discriminate.
  - apply destroy_disarms.
  - rewrite destroy_keeps_pending. exact Harmed.
Qed.

Lemma open_window (p : Provider) (d : Doc) (u : Uint8Array) :
  0 < throttle_of p -> docObserved p = true -> broadcastTimeout p = None ->
  let id := Timers.next (timers p) in
  (step (DocUpdate d u origin_other) p).2
  = [SetTimeout id Flush (Finite (throttle_of p))]
  /\ buffering p (step (DocUpdate d u origin_other) p).1 id
               (pendingUpdates p ++ [u]).
Proof.
  intros Hthrottle Hobs Hbt id. apply Z.leb_gt in Hthrottle.
  unfold_ops. simpl. rewrite Hobs. unfold throttle_of in *. simpl.
  rewrite Hthrottle. simpl. rewrite Hbt. simpl.
  split; [done |]. split; simpl; try done. apply lookup_insert_eq.
Qed.

Lemma buffer_edit (p0 p : Provider) (id : TimerId)
    (buffer : list Uint8Array) (d : Doc) (u : Uint8Array) :
  0 < throttle_of p0 -> buffering p0 p id buffer ->
  (step (DocUpdate d u origin_other) p).2 = []
  /\ buffering p0 (step (DocUpdate d u origin_other) p).1 id (buffer ++ [u]).
Proof.
  intros Hthrottle [Hopts Huid Hch Hobs Hbt Htimer Hbuf].
  apply Z.leb_gt in Hthrottle.
  unfold_ops. simpl. rewrite Hobs. unfold throttle_of in *. simpl.
  rewrite Hopts, Hthrottle. simpl. rewrite Hbt. simpl.
  split; [done |]. split; simpl; try done. by rewrite Hbuf.
Qed.

Lemma buffer_edits (p0 : Provider) (id : TimerId)
    (edits : list (Doc * Uint8Array)) :
  0 < throttle_of p0 ->
  forall (p : Provider) (buffer : list Uint8Array),
    buffering p0 p id buffer ->
    (run (local_edits edits) p).2 = []
    /\ buffering p0 (run (local_edits edits) p).1 id
                 (buffer ++ map snd edits).
Proof.
  intros Hthrottle. induction edits as [|[d u] edits IH]; intros p buffer Hp.
  - simpl. by rewrite app_nil_r.
  - cbn [local_edits map fst snd]. rewrite run_cons. cbn [fst snd].
    fold (local_edits edits).
    destruct (buffer_edit p0 p id buffer d u Hthrottle Hp) as [Hfx Hp1].
    destruct (IH _ _ Hp1) as [Hfx' Hp2].
    rewrite Hfx, Hfx'. split; [done |].
    by rewrite <- app_assoc in Hp2.
Qed.

Lemma flush_window (p0 p : Provider) (id : TimerId)
    (buffer : list Uint8Array) (ch : Channel) :
  buffering p0 p id buffer -> buffer <> [] -> channel p0 = Some ch ->
  (step (TimerFires id) p).2
  = [Send ch UPDATE_EVENT (wire (combined buffer)) (userId p0)]
  /\ pendingUpdates (step (TimerFires id) p).1 = []
  /\ broadcastTimeout (step (TimerFires id) p).1 = None.
Proof.
  intros [Hopts Huid Hch Hobs Hbt Htimer Hbuf] Hne Hch0.
  unfold step, timer_fires. rewrite Htimer.
  unfold_ops. simpl. rewrite Hbuf.
  destruct buffer as [|u [|u' buffer]]; [done | |];
    simpl; rewrite Hch, Hch0, Huid; done.
Qed.

(** C2, as amended: with a positive [broadcastThrottleMs], [N >= 1] local
    edits and the flush timer they arm produce exactly one update
    broadcast; its payload combines what the buffer held when the window
    opened, followed by the [N] payloads, with [Y.mergeUpdates], or is the
    single payload unchanged when that makes exactly one.  The buffer is
    empty and no flush timer is armed afterwards. *)
Theorem throttled_edits_one_broadcast (p : Provider) (ch : Channel)
    (edits : list (Doc * Uint8Array)) :
  0 < throttle_of p ->
  docObserved p = true ->
  channel p = Some ch ->
  broadcastTimeout p = None ->
  edits <> [] ->
  let id := Timers.next (timers p) in
  let after := run (local_edits edits ++ [TimerFires id]) p in
  after.2
  = [SetTimeout id Flush (Finite (throttle_of p));
     Send ch UPDATE_EVENT
          (wire (combined (pendingUpdates p ++ map snd edits))) (userId p)]
  /\ pendingUpdates after.1 = []
  /\ broadcastTimeout after.1 = None.
Proof.
  intros Hthrottle Hobs Hch Hbt Hne id after. unfold after.
  destruct edits as [|[d u] edits]; [done |].
  cbn [local_edits map fst snd]. fold (local_edits edits).
  rewrite <- app_comm_cons, run_cons, run_app. cbn [fst snd].
  destruct (open_window p d u Hthrottle Hobs Hbt) as [Hfx1 Hp1].
  destruct (buffer_edits p _ edits Hthrottle _ _ Hp1) as [Hfx2 Hp2].
  assert (Hsome : (pendingUpdates p ++ [u]) ++ map snd edits <> []).
  { rewrite <- app_assoc. by destruct (pendingUpdates p). }
  destruct (flush_window p _ _ _ ch Hp2 Hsome Hch) as (Hfx3 & Hbuf & Hnone).
  rewrite run_cons. cbn [fst snd run skip]. 
  fold id in Hfx1, Hp1, Hp2, Hfx3, Hbuf, Hnone.
  rewrite Hfx1, Hfx2, Hfx3, app_nil_r. simpl.
  rewrite <- app_assoc. simpl. done.
Qed.

End provider_facts.

(** ** The properties at work on the small engine *)

Section examples.
Import LogEngine.

Lemma reachable_fresh : reachable fresh.
Proof. apply reachable_new. Qed.

Lemma reachable_fresh_throttled : reachable fresh_throttled.
Proof. apply reachable_new. Qed.

Lemma reachable_connected : reachable connected.
Proof. apply reachable_step, reachable_fresh. Qed.

Lemma reachable_connected_throttled : reachable connected_throttled.
Proof. apply reachable_step, reachable_fresh_throttled. Qed.

Lemma reachable_destroyed : reachable destroyed.
Proof. apply reachable_run, reachable_connected_throttled. Qed.

Lemma reachable_reused : reachable reused.
Proof. apply reachable_step, reachable_destroyed. Qed.

Lemma state_vector_second_delivery_witness :
  let first := message "AA==" "peer-2" in
  let second := message "AQ==" "peer-2" in
  let between := [OnUpdate (message "AQ==" "peer-3");
                  ChannelStatus CLOSED None;
                  DocUpdate [[x02]] [x02] origin_other] in
  let p' := (run between (handleStateVector first connected).1).1 in
  handleStateVector second p' = (p', []).
Proof.
  apply state_vector_second_delivery.
  - discriminate.
  - reflexivity.
  - simpl. repeat split; reflexivity.
Defined.

Lemma self_filter_witness :
  let payload := message "AQ==" "me" in
  handleRemoteUpdate payload fresh_aware = (fresh_aware, [])
  /\ handleRemoteAwareness payload fresh_aware = (fresh_aware, []).
Proof. apply self_filter. reflexivity. Defined.

Lemma reconnect_backoff_witness :
  let failed_once := (step (ChannelStatus CLOSED None) fresh).1 in
  Finite 1000 = Math_min (js_mul 1000 (Math_pow2 0)) 30000
  /\ reconnectAttempts (scheduleReconnect fresh).1 = 1
  /\ ~ js_exceeds (Finite 1000) 30000
  /\ Finite 1000 = Finite (Z.min (1000 * 2 ^ 0) 30000)
  /\ js_le (Finite 1000) (Finite 2000).
Proof.
  intros failed_once.
  assert (Harmed : SetTimeout 1 Reconnect (Finite 1000)
                   ∈ (scheduleReconnect fresh).2)
    by (vm_compute; constructor).
  assert (Hk : 0 <= reconnectAttempts fresh) by (simpl; lia).
  destruct (reconnect_backoff fresh 1 Reconnect (Finite 1000) Harmed Hk)
    as (Hdelay & Hnext & Hcap & Hpositive & _).
  split; [exact Hdelay |]. split; [exact Hnext |]. split; [exact Hcap |].
  destruct Hpositive as [Hvalue Hlater];
    [simpl; lia | reflexivity | left; simpl; lia |].
  split; [exact Hvalue |].
  apply (Hlater failed_once 2%nat Reconnect (Finite 2000)).
  - reflexivity.
  - simpl. lia.
  - left. simpl. lia.
  - vm_compute. right. left.
Defined.

Lemma state_vector_reply_witness :
  let payload := message "AA==" "peer-2" in
  let reply := Send 0%nat STATE_VECTOR_EVENT (js "AA==") "me" in
  (forall remoteStateVector diff,
      decodeUpdate (body payload) = Some remoteStateVector ->
      Y_encodeStateAsUpdate (doc connected) remoteStateVector = inr diff ->
      (handleStateVector payload connected).2
      = ComputeDiff remoteStateVector
          :: (if (2 <? length diff)%nat
              then [Send 0%nat UPDATE_EVENT (wire diff) "me"; reply]
              else [reply]))
  /\ (decodeUpdate (body payload) = None ->
      (handleStateVector payload connected).2
      = [Emit (error_event (Caught InvalidCharacterError))]).
Proof.
  apply (state_vector_reply (message "AA==" "peer-2") connected 0%nat).
  - discriminate.
  - simpl. apply not_elem_of_empty.
  - reflexivity.
Defined.

Lemma malformed_state_vector_marks_peer_witness :
  let payload := message "corrupted-data-!!!" "other-peer" in
  let p1 := (handleStateVector payload connected).1 in
  (handleStateVector payload connected).2
  = [Emit (error_event (Caught InvalidCharacterError))]
  /\ syncedPeers p1 = {[sender payload]} ∪ syncedPeers connected
  /\ (forall (later : Payload) (between : list Event),
        sender later = sender payload ->
        same_epoch between p1 ->
        handleStateVector later (run between p1).1 = ((run between p1).1, []))
  /\ (forall between : list Event,
        syncedPeers (connect (run between p1).1).1 = ∅).
Proof.
  apply malformed_state_vector_marks_peer.
  - discriminate.
  - simpl. apply not_elem_of_empty.
  - vm_compute. reflexivity.
Defined.

Lemma flush_timer_and_buffer_witness :
  Timers.armed Flush (timers Samples.buffering_one)
  /\ pendingUpdates Samples.buffering_one <> []
  /\ ~ Timers.armed Flush (timers (destroy Samples.buffering_one).1)
  /\ pendingUpdates (destroy Samples.buffering_one).1 = [[x01]]
  /\ pendingUpdates (destroy Samples.buffering_one).1 <> [].
Proof.
  assert (Hreachable : reachable Samples.buffering_one)
    by apply reachable_step, reachable_connected_throttled.
  assert (Hsettled : settled Samples.buffering_one).
  { unfold Samples.buffering_one. apply settled_queued.
    - apply reachable_connected_throttled.
    - reflexivity.
    - reflexivity. }
  destruct (flush_timer_and_buffer Samples.buffering_one Hreachable)
    as (Hbuffer & Harmed & Hdisarmed & Hkept & Hleft).
  assert (Ht : Timers.armed Flush (timers Samples.buffering_one))
    by (apply Harmed; [exact Hsettled | discriminate]).
  split; [exact Ht |]. split; [exact (Hbuffer Ht) |].
  split; [exact Hdisarmed |]. split; [exact Hkept |]. exact (Hleft Ht).
Defined.

Lemma throttled_edits_one_broadcast_witness :
  let edits := [([[x01]], [x01]); ([[x02]; [x01]], [x02])] in
  let after :=
    run (local_edits edits ++ [TimerFires 1%nat]) connected_throttled in
  after.2
  = [SetTimeout 1%nat Flush (Finite 100);
     Send 0%nat UPDATE_EVENT (wire (Y_mergeUpdates [[x01]; [x02]])) "me"]
  /\ pendingUpdates after.1 = []
  /\ broadcastTimeout after.1 = None.
Proof.
  apply (throttled_edits_one_broadcast connected_throttled 0%nat
           [([[x01]], [x01]); ([[x02]; [x01]], [x02])]).
  - reflexivity.
  - reflexivity.
  - reflexivity.
  - reflexivity.
  - discriminate.
Defined.


(** C6, as stated, fails: a first state-vector message whose payload does
    not decode gets no reply. *)
Lemma malformed_state_vector_gets_no_reply :
  ~ (forall (payload : Payload) (p : Provider),
        reachable p ->
        sender payload <> userId p ->
        sender payload ∉ syncedPeers p ->
        is_Some (channel p) ->
        exists ch encoded,
          Send ch STATE_VECTOR_EVENT encoded (userId p)
          ∈ (handleStateVector payload p).2).
Proof.
  intros Hclaim.
  destruct (Hclaim (message "corrupted-data-!!!" "other-peer") connected)
    as (ch & encoded & Hsent).
  - apply reachable_connected.
  - discriminate.
  - simpl. apply not_elem_of_empty.
  - by eexists.
  - vm_compute in Hsent.
    apply elem_of_cons in Hsent as [Hsent | Hsent]; [discriminate |].
    by apply not_elem_of_nil in Hsent.
Qed.

(** C7, as stated, fails: after [destroy()] cancelled an armed flush
    timer, the buffer still holds the pending payload and no flush timer
    is armed. *)
Lemma destroy_keeps_buffer :
  ~ (forall p : Provider,
        reachable p ->
        (Timers.armed Flush (timers p) <-> pendingUpdates p <> [])).
Proof.
  intros Hclaim.
  destruct (Hclaim destroyed reachable_destroyed) as [_ Harmed].
  destruct Harmed as [id Hid]; [discriminate |].
  pose proof (reachable_timers_ok destroyed reachable_destroyed)
    as (Hflush & _).
  apply Hflush in Hid. discriminate Hid.
Qed.

(** C4, as stated, fails: with [reconnectDelay] set to -1000 the first
    attempt waits -1000 ms and the second -2000 ms, so the delay sequence
    decreases. *)
Lemma negative_delay_decreases :
  ~ (forall (p q : Provider) (id id' : TimerId) (k k' : TimerKind)
            (delay delay' : JSNumber),
        reachable p ->
        reachable q ->
        options q = options p ->
        0 <= reconnectAttempts p <= reconnectAttempts q ->
        SetTimeout id k delay ∈ (scheduleReconnect p).2 ->
        SetTimeout id' k' delay' ∈ (scheduleReconnect q).2 ->
        js_le delay delay').
Proof.
  intros Hclaim.
  specialize (Hclaim Samples.fresh_backwards Samples.backwards_failed_once
                1%nat 2%nat Reconnect Reconnect
                (Finite (-1000)) (Finite (-2000))).
  assert (Hle : js_le (Finite (-1000)) (Finite (-2000))).
  { apply Hclaim.
    - apply reachable_new.
    - apply reachable_step, reachable_new.
    - reflexivity.
    - simpl. lia.
    - vm_compute. left.
    - vm_compute. right. left. }
  simpl in Hle. lia.
Qed.

(** C2, as stated, fails: a payload that [destroy()] left in the buffer is
    merged into the broadcast of the next throttle window, so the single
    edit of that window is not passed through unchanged. *)
Lemma stale_buffer_joins_next_window :
  ~ (forall (p : Provider) (ch : Channel) (edits : list (Doc * Uint8Array)),
        reachable p ->
        0 < throttle_of p ->
        docObserved p = true ->
        channel p = Some ch ->
        broadcastTimeout p = None ->
        edits <> [] ->
        (run (local_edits edits ++ [TimerFires (Timers.next (timers p))]) p).2
        = [SetTimeout (Timers.next (timers p)) Flush
             (Finite (throttle_of p));
           Send ch UPDATE_EVENT (wire (combined (map snd edits))) (userId p)]).
Proof.
  intros Hclaim.
  specialize (Hclaim reused 1%nat [([[x02]; [x01]], [x02])]
                reachable_reused).
  vm_compute in Hclaim.
  specialize (Hclaim eq_refl eq_refl eq_refl eq_refl).
  discriminate Hclaim; discriminate.
Qed.

End examples.

(** ** Examples on the engine that throws half-way *)
Section torn_examples.
Import TornEngine.
#[local] Existing Instance engine.

Lemma remote_update_failure_witness :
  let torn := set_doc [[x01]] connected in
  exists e : ErrorValue,
    handleRemoteUpdate torn_message connected
    = (torn, [Emit (error_event e)])
    /\ (decodeUpdate (body torn_message) = None ->
        torn = connected)
    /\ forall evs : list Event,
        run (OnUpdate torn_message :: evs) connected
        = ((run evs torn).1, Emit (error_event e) :: (run evs torn).2).
Proof.
  apply (remote_update_failure torn_message
           connected).
  - discriminate.
  - vm_compute. by eexists.
Defined.

(** C8, as stated, fails: an engine that has integrated part of an update
    when [Y.applyUpdate] throws leaves the document changed, and the
    handler, which has no rollback, reports the error and keeps it so. *)
Lemma failed_update_changes_document :
  ~ (forall (engine : MergeEngine) (payload : Payload)
            (p : @Provider engine),
        reachable p ->
        sender payload <> userId p ->
        update_fails payload p ->
        doc (handleRemoteUpdate payload p).1 = doc p).
Proof.
  intros Hclaim.
  specialize (Hclaim engine torn_message
                connected).
  assert (Hsame : doc (handleRemoteUpdate torn_message
                         connected).1
                  = doc connected).
  { apply Hclaim.
    - apply reachable_step, reachable_new.
    - discriminate.
    - vm_compute. by eexists. }
  vm_compute in Hsame. discriminate Hsame.
Qed.

End torn_examples.

(* ===================================================================== *)
(** * Part III — further properties of the code *)
(* ===================================================================== *)

(** ** The event emitter *)

Module EventBusFacts.
Import EventBus.

Lemma set_add_NoDup x s : NoDup s -> NoDup (set_add x s).
Proof.
  intros Hs. unfold set_add. case_decide; [done |].
  apply NoDup_app. split; [done |]. split.
  - intros y Hy Hx. apply list_elem_of_singleton in Hx. by subst.
  - apply NoDup_singleton.
Qed.

Lemma set_delete_NoDup x s : NoDup s -> NoDup (set_delete x s).
Proof. apply NoDup_filter. Qed.

Lemma set_add_idempotent x s : set_add x (set_add x s) = set_add x s.
Proof.
  unfold set_add. destruct (decide (x ∈ s)) as [Hin | Hout].
  - by rewrite decide_True.
  - rewrite decide_True; [done |]. apply elem_of_app. right. by left.
Qed.

Lemma on_lookup event listener listeners :
  on event listener listeners !! event
  = Some (set_add listener (default [] (listeners !! event))).
Proof.
  unfold on. destruct (listeners !! event) as [s|] eqn:Hs.
  - rewrite Hs. by rewrite lookup_insert_eq.
  - rewrite lookup_insert_eq. by rewrite lookup_insert_eq.
Qed.

Lemma on_lookup_ne event event' listener listeners :
  event <> event' ->
  on event listener listeners !! event' = listeners !! event'.
Proof.
  intros Hne. unfold on. destruct (listeners !! event) as [s|] eqn:Hs.
  - rewrite Hs. by rewrite lookup_insert_ne.
  - rewrite lookup_insert_eq. by rewrite !lookup_insert_ne.
Qed.

Lemma off_lookup event listener listeners :
  off event listener listeners !! event
  = set_delete listener <$> listeners !! event.
Proof.
  unfold off. destruct (listeners !! event) as [s|] eqn:Hs.
  - by rewrite lookup_insert_eq.
  - by rewrite Hs.
Qed.

Lemma off_lookup_ne event event' listener listeners :
  event <> event' ->
  off event listener listeners !! event' = listeners !! event'.
Proof.
  intros Hne. unfold off. destruct (listeners !! event) as [s|] eqn:Hs.
  - by rewrite lookup_insert_ne.
  - done.
Qed.

(** X1: registering the same callback for the same event twice is the same
    as registering it once. *)
Theorem on_idempotent event listener listeners :
  on event listener (on event listener listeners)
  = on event listener listeners.
Proof.
  apply map_eq. intros e. destruct (decide (event = e)) as [<- | Hne].
  - rewrite !on_lookup. simpl. by rewrite set_add_idempotent.
  - by rewrite !on_lookup_ne.
Qed.

(** X2: [on] and [off] for one event name leave what [emit] does for every
    other event name as it was. *)
Theorem emit_other_event {A} event event' listener (args : A) listeners :
  event <> event' ->
  emit event' args (on event listener listeners) = emit event' args listeners
  /\ emit event' args (off event listener listeners)
     = emit event' args listeners.
Proof.
  intros Hne. unfold emit. by rewrite on_lookup_ne, off_lookup_ne.
Qed.

(** X3: after [off], [emit] no longer calls the removed callback and calls the
    remaining ones as before, in the same order. *)
Theorem emit_after_off {A} event listener (args : A) listeners :
  emit event args (off event listener listeners)
  = filter (fun c => c.1 <> listener) (emit event args listeners).
Proof.
  unfold emit. rewrite off_lookup.
  destruct (listeners !! event) as [s|]; [| done]. simpl.
  unfold set_delete. induction s as [|x s IH]; [done |]. simpl.
  rewrite !filter_cons. simpl. case_decide; simpl; by rewrite IH.
Qed.

Lemma empty_distinct : distinct ∅.
Proof. intros e s. by rewrite lookup_empty. Qed.

Lemma on_distinct event listener listeners :
  distinct listeners -> distinct (on event listener listeners).
Proof.
  intros Hd e s. destruct (decide (event = e)) as [<- | Hne].
  - rewrite on_lookup. intros [= <-]. apply set_add_NoDup.
    destruct (listeners !! event) as [s'|] eqn:Hs; simpl.
    + by eapply Hd.
    + apply NoDup_nil_2.
  - rewrite on_lookup_ne by done. apply Hd.
Qed.

Lemma off_distinct event listener listeners :
  distinct listeners -> distinct (off event listener listeners).
Proof.
  intros Hd e s. destruct (decide (event = e)) as [<- | Hne].
  - rewrite off_lookup.
    destruct (listeners !! event) as [s'|] eqn:Hs; simpl; [| done].
    intros [= <-]. apply set_delete_NoDup. by eapply Hd.
  - rewrite off_lookup_ne by done. apply Hd.
Qed.

Lemma calls_of_map {A} (listener : Listener) (args : A) (s : list Listener) :
  calls_of listener (map (fun l => (l, args)) s)
  = length (filter (fun l => l = listener) s).
Proof.
  unfold calls_of. induction s as [|x s IH]; [done |]. simpl.
  rewrite !filter_cons. simpl. case_decide; simpl; by rewrite IH.
Qed.

Lemma filter_eq_absent (x : Listener) (s : list Listener) :
  x ∉ s -> filter (fun l => l = x) s = [].
Proof.
  induction s as [|y s IH]; intros Hx; [done |].
  apply not_elem_of_cons in Hx as [Hne Hx].
  rewrite filter_cons. case_decide; [by subst |]. by apply IH.
Qed.

Lemma NoDup_filter_eq (x : Listener) (s : list Listener) :
  NoDup s -> x ∈ s -> length (filter (fun l => l = x) s) = 1%nat.
Proof.
  induction 1 as [|y s Hy Hs IH]; intros Hx; [by apply elem_of_nil in Hx |].
  rewrite filter_cons. case_decide as Heq.
  - subst y. simpl. by rewrite filter_eq_absent.
  - apply elem_of_cons in Hx as [-> | Hx]; [done |]. by apply IH.
Qed.

(** X4: once a callback is registered for an event, each [emit] of that event
    calls it exactly once, however often [on] was called with it. *)
Theorem emit_after_on {A} event listener (args : A) listeners :
  distinct listeners ->
  calls_of listener (emit event args (on event listener listeners)) = 1%nat.
Proof.
  intros Hd. unfold emit. rewrite on_lookup, calls_of_map.
  apply NoDup_filter_eq.
  - apply set_add_NoDup. destruct (listeners !! event) as [s|] eqn:Hs; simpl.
    + by eapply Hd. + apply NoDup_nil_2.
  - unfold set_add. case_decide; [done |]. apply elem_of_app. right. by left.
Qed.

End EventBusFacts.

Section transport_more.
Import Base64 Base64Facts.

Lemma fromCharCode_apply_octets (u : Uint8Array) :
  Forall octet (fromCharCode_apply u).
Proof.
  apply Forall_map, Forall_forall. intros b _.
  pose proof (byte_to_Z_octet b) as Hb. unfold octet in *.
  unfold fromCharCode. rewrite Z.mod_small; lia.
Qed.

Lemma fromCharCode_apply_bytes (u : Uint8Array) :
  fromCharCode_apply u = map byte_to_Z u.
Proof.
  unfold fromCharCode_apply. apply map_ext. intros b.
  pose proof (byte_to_Z_octet b) as Hb. unfold octet in Hb.
  unfold fromCharCode. apply Z.mod_small. lia.
Qed.

Lemma encodeUpdate_value (u : Uint8Array) :
  encodeUpdate u = Some (b64_encode (map byte_to_Z u)).
Proof.
  unfold encodeUpdate. rewrite encodeUpdate_loop_spec by lia. simpl.
  rewrite fromCharCode_apply_bytes. apply btoa_octets.
  rewrite <- fromCharCode_apply_bytes. apply fromCharCode_apply_octets.
Qed.

Lemma decodeUpdate_b64_encode (u : Uint8Array) :
  decodeUpdate (b64_encode (map byte_to_Z u)) = Some u.
Proof.
  unfold decodeUpdate. rewrite atob_b64_encode; cycle 1.
  { rewrite <- fromCharCode_apply_bytes. apply fromCharCode_apply_octets. }
  simpl. rewrite decodeUpdate_loop_spec. f_equal.
  change (map ?f u) with (f <$> u). rewrite <- list_fmap_compose.
  rewrite <- (list_fmap_id u) at 2. apply list_fmap_ext.
  intros i b _. simpl. rewrite <- (toUint8_byte_to_Z b) at 2.
  f_equal. pose proof (byte_to_Z_octet b) as Hb. unfold octet in Hb.
  unfold fromCharCode. symmetry. apply Z.mod_small. lia.
Qed.

Lemma wire_value (u : Uint8Array) : wire u = b64_encode (map byte_to_Z u).
Proof. unfold wire. by rewrite encodeUpdate_value. Qed.

(** X5: the chunks of [encodeUpdate] do not show: its result is [btoa] of the
    string holding one code unit per byte, in order, and it never throws. *)
Theorem encodeUpdate_unchunked (u : Uint8Array) :
  encodeUpdate u = btoa (map byte_to_Z u) /\ is_Some (encodeUpdate u).
Proof.
  rewrite encodeUpdate_value. split; [| by eexists].
  symmetry. apply btoa_octets.
  rewrite <- fromCharCode_apply_bytes. apply fromCharCode_apply_octets.
Qed.

Lemma decodeUpdate_wire (u : Uint8Array) : decodeUpdate (wire u) = Some u.
Proof. rewrite wire_value. apply decodeUpdate_b64_encode. Qed.

(** X6: two updates with the same wire payload are the same update. *)
Theorem wire_injective (u1 u2 : Uint8Array) : wire u1 = wire u2 -> u1 = u2.
Proof.
  intros Heq. assert (H : Some u1 = Some u2); [| by injection H].
  by rewrite <- !decodeUpdate_b64_encode, <- !wire_value, Heq.
Qed.

Lemma b64_encode_length (bs : list Z) :
  (length (b64_sextets bs) + b64_padding (length bs)
   = 4 * ((length bs + 2) / 3))%nat.
Proof.
  induction bs as [| a | a b | a b c l IH] using list_ind3; try reflexivity.
  replace (b64_padding (length (a :: b :: c :: l)))
    with (b64_padding (length l)).
  - simpl length.
    replace (S (S (S (length l))) + 2)%nat with (length l + 2 + 1 * 3)%nat
      by lia.
    rewrite Nat.div_add by lia. lia.
  - unfold b64_padding. f_equal. simpl length.
    replace (S (S (S (length l)))) with (length l + 1 * 3)%nat by lia.
    by rewrite Nat.Div0.mod_add.
Qed.

(** X7: a wire payload is plain base64: its code units are letters, digits,
    [+], [/] and trailing [=], and it is four code units long for every
    three bytes, rounded up. *)
Theorem wire_shape (u : Uint8Array) :
  Forall transport_char (wire u)
  /\ length (wire u) = (4 * ((length u + 2) / 3))%nat.
Proof.
  rewrite wire_value. unfold b64_encode. split.
  - apply Forall_app. split.
    + apply Forall_map. eapply Forall_impl.
      * apply b64_sextets_range. rewrite <- fromCharCode_apply_bytes.
        apply fromCharCode_apply_octets.
      * intros s Hs. left. simpl. by rewrite b64_index_char.
    + apply Forall_replicate. by right.
  - rewrite length_app, length_map, length_replicate, b64_encode_length.
    by rewrite length_map.
Qed.

Lemma strip_padding_keeps (c : Z) (d : list Z) :
  c ∈ d -> c <> pad_char -> c ∈ strip_padding d.
Proof.
  intros Hc Hne. unfold strip_padding.
  assert (Hrev : c ∈ rev d) by (apply list_elem_of_In, in_rev;
                                rewrite rev_involutive; by apply list_elem_of_In).
  destruct (rev d) as [|c1 r1] eqn:Hd; [done |].
  destruct (Z.eqb_spec c1 pad_char) as [-> | _]; [| done].
  apply elem_of_cons in Hrev as [? | Hrev]; [done |].
  destruct r1 as [|c2 r2]; [by apply elem_of_nil in Hrev |].
  destruct (Z.eqb_spec c2 pad_char) as [-> | _].
  - apply elem_of_cons in Hrev as [? | Hrev]; [done |].
    apply list_elem_of_In, in_rev. rewrite rev_involutive.
    by apply list_elem_of_In.
  - apply list_elem_of_In, in_rev. rewrite rev_involutive.
    by apply list_elem_of_In.
Qed.

Lemma mapM_None_elem {A B} (f : A -> option B) (l : list A) (x : A) :
  x ∈ l -> f x = None -> mapM f l = None.
Proof.
  intros Hx Hf. destruct (mapM f l) as [k|] eqn:Hk; [| done].
  apply mapM_Some_1 in Hk.
  apply list_elem_of_lookup in Hx as [i Hi].
  destruct (Forall2_lookup_l _ _ _ _ _ Hk Hi) as (y & _ & Hy). congruence.
Qed.

(** X8: [decodeUpdate] throws on every string that holds a code unit other
    than a base64 character, [=] and ASCII white space. *)
Theorem decodeUpdate_rejects (encoded : JSString) (c : Z) :
  c ∈ encoded ->
  b64_index c = None -> c <> pad_char -> is_ascii_whitespace c = false ->
  decodeUpdate encoded = None.
Proof.
  intros Hc Hindex Hpad Hws. unfold decodeUpdate, atob.
  set (data := List.filter _ encoded).
  assert (Hdata : c ∈ data).
  { apply list_elem_of_In, filter_In. split; [by apply list_elem_of_In |].
    by rewrite Hws. }
  set (data' := if (length data mod 4 =? 0)%nat then _ else _).
  assert (Hdata' : c ∈ data').
  { unfold data'. destruct (_ =? _)%nat; [| done].
    by apply strip_padding_keeps. }
  destruct (length data' mod 4 =? 1)%nat; [done |].
  by rewrite (mapM_None_elem _ _ c).
Qed.
End transport_more.

(** ** The provider, continued *)

Ltac break_match :=
  match goal with
  | |- context [match ?x with _ => _ end] =>
      lazymatch x with
      | context [match _ with _ => _ end] => fail
      | _ => destruct x eqn:?
      end
  end.

Ltac unfold_ops :=
  unfold step, timer_fires, flush, reconnect_callback, subscribe_callback,
    scheduleReconnect, connect, destroy, handleStateVector,
    handleRemoteUpdate, handleRemoteAwareness, awareness_update_event,
    handleAwarenessUpdate, broadcastAwarenessUpdate, doc_update_event,
    handleDocUpdate, queueBroadcast, sendStateVector, broadcastUpdate,
    setStatus, emit, clearTimeout, setTimeout, andThen, modify, effect, skip
    in *.

Ltac run_ops := unfold_ops; repeat (simpl; break_match); simpl.

Ltac use_eqns :=
  repeat match goal with
         | H : ?f ?p = _ |- context [?f ?p] => rewrite H
         end.

Section provider_more.
Context `{ME : MergeEngine}.

Lemma silent_nil : silent [].
Proof. constructor. Qed.

Lemma silent_app fx1 fx2 : silent fx1 -> silent fx2 -> silent (fx1 ++ fx2).
Proof. intros. by apply Forall_app. Qed.

Lemma andThen_effect (e : Effect) (op : Op) (p : Provider) :
  (andThen (effect e) op p).2 = e :: (op p).2.
Proof. unfold andThen, effect. by destruct (op p). Qed.

Lemma andThen_modify (f : Provider -> Provider) (op : Op) (p : Provider) :
  andThen (modify f) op p = op (f p).
Proof. unfold andThen, modify. by destruct (op (f p)). Qed.

Ltac silent_goal :=
  repeat first [ apply Forall_nil_2 | apply Forall_cons_2; [by split |] ].

(** X9: an update one provider broadcasts is applied by every other provider
    that receives it as the same bytes, and raises [message] there. *)
Theorem update_relay (a b : Provider) (ch : Channel) (u : Uint8Array) :
  channel a = Some ch ->
  userId a <> userId b ->
  (broadcastUpdate u UPDATE_EVENT a).2
  = [Send ch UPDATE_EVENT (wire u) (userId a)]
  /\ forall d',
      Y_applyUpdate (doc b) u = (d', None) ->
      handleRemoteUpdate {| body := wire u; sender := userId a |} b
      = (set_doc d' b, [Emit (message_event u)]).
Proof.
  intros Hch Hne. split.
  - unfold broadcastUpdate, effect. by rewrite Hch.
  - intros d' Happly. unfold handleRemoteUpdate. simpl.
    destruct (decide (userId a = userId b)); [done |].
    rewrite decodeUpdate_wire, Happly.
    unfold_ops. simpl. by destruct (docObserved b).
Qed.

(** X10: the state vector one provider sends makes every other provider that
    sees this peer for the first time in the epoch compute the diff against
    exactly that state vector. *)
Theorem state_vector_relay (a b : Provider) (ch : Channel) :
  channel a = Some ch ->
  userId a <> userId b ->
  userId a ∉ syncedPeers b ->
  let sv := Y_encodeStateVector (doc a) in
  (sendStateVector a).2 = [Send ch STATE_VECTOR_EVENT (wire sv) (userId a)]
  /\ exists rest,
      (handleStateVector {| body := wire sv; sender := userId a |} b).2
      = ComputeDiff sv :: rest.
Proof.
  intros Hch Hne Hfirst sv. split.
  - unfold sendStateVector, effect. by rewrite Hch.
  - unfold handleStateVector. simpl.
    destruct (decide (userId a = userId b)); [done |].
    destruct (decide (userId a ∈ syncedPeers b)); [done |].
    rewrite andThen_modify, decodeUpdate_wire, andThen_effect.
    by eexists.
Qed.

(** X11: input that comes from remote peers is never echoed: handling an
    update-topic or awareness-topic message, or a document or presence
    change of origin ['remote'], sends nothing, arms no timer and leaves
    the Pending Update Buffer as it is. *)
Theorem remote_input_no_echo (ev : Event) (p : Provider) :
  remote_input ev ->
  silent (step ev p).2
  /\ pendingUpdates (step ev p).1 = pendingUpdates p.
Proof.
  destruct ev; try done; try (destruct origin; try done); intros _;
    run_ops; split; try done; silent_goal.
Qed.

Lemma unthrottled_edit (p : Provider) (ch : Channel) (d : Doc) (u : Uint8Array) :
  throttle_of p <= 0 -> docObserved p = true -> channel p = Some ch ->
  step (DocUpdate d u origin_other) p
  = (set_doc d p, [Send ch UPDATE_EVENT (wire u) (userId p)]).
Proof.
  intros Hthrottle Hobs Hch. apply Z.leb_le in Hthrottle.
  unfold_ops. simpl. rewrite Hobs. unfold throttle_of in *. simpl.
  rewrite Hthrottle. simpl. by rewrite Hch.
Qed.

(** X12: without throttling (option absent, zero or negative) every local
    edit is broadcast at once, unchanged and in order; nothing is buffered
    and no timer is armed. *)
Theorem unthrottled_edits_broadcast (edits : list (Doc * Uint8Array)) :
  forall (p : Provider) (ch : Channel),
    throttle_of p <= 0 -> docObserved p = true -> channel p = Some ch ->
    (run (local_edits edits) p).2
    = map (fun e => Send ch UPDATE_EVENT (wire e.2) (userId p)) edits
    /\ pendingUpdates (run (local_edits edits) p).1 = pendingUpdates p
    /\ timers (run (local_edits edits) p).1 = timers p.
Proof.
  induction edits as [|[d u] edits IH]; intros p ch Hthrottle Hobs Hch.
  - done.
  - cbn [local_edits map fst snd]. fold (local_edits edits).
    rewrite run_cons, (unthrottled_edit p ch) by done. cbn [fst snd].
    destruct (IH (set_doc d p) ch) as (Hfx & Hbuf & Htimers); try done.
    rewrite Hfx, Hbuf, Htimers. done.
Qed.

End provider_more.

(** ** Teardown and timers *)

Section teardown.
Context `{ME : MergeEngine}.

Ltac silent_goal :=
  repeat first [ apply Forall_nil_2 | apply Forall_cons_2; [by split |] ].

Lemma tracked_insert_flush m rt n : tracked m rt -> tracked (<[n := Flush]> m) rt.
Proof.
  intros Hm id. destruct (decide (n = id)) as [-> | Hne].
  - by rewrite lookup_insert_eq.
  - rewrite lookup_insert_ne by done. apply Hm.
Qed.

Lemma tracked_delete m rt id : tracked m rt -> tracked (delete id m) rt.
Proof.
  intros Hm j. rewrite lookup_delete. case_decide; [done |]. apply Hm.
Qed.

Lemma tracked_arm m n : tracked m None -> tracked (<[n := Reconnect]> m) (Some n).
Proof.
  intros Hm id. destruct (decide (n = id)) as [-> | Hne]; [done |].
  rewrite lookup_insert_ne by done. intros H%Hm. discriminate.
Qed.

Lemma tracked_clear m id : tracked m (Some id) -> tracked (delete id m) None.
Proof.
  intros Hm j. rewrite lookup_delete. case_decide; [done |].
  intros [= ?]%Hm. done.
Qed.

Ltac tracked_goal H :=
  first
    [ exact H
    | discriminate
    | apply tracked_insert_flush; tracked_goal H
    | apply tracked_arm; tracked_goal H
    | apply tracked_clear; tracked_goal H
    | apply tracked_delete; tracked_goal H
    | intros ? ?; discriminate ].

Ltac tracked_by_cases :=
  intros p; unfold reconnect_tracked; run_ops; simplify_eq; use_eqns;
  let H := fresh "Htracked" in intros H; tracked_goal H.

Lemma step_reconnect_tracked (ev : Event) : keeps reconnect_tracked (step ev).
Proof. destruct ev; tracked_by_cases. Qed.

Lemma reachable_reconnect_tracked (p : Provider) :
  reachable p -> reconnect_tracked p.
Proof.
  induction 1 as [uid d aw opts | ev p _ IH].
  - intros id. simpl. by rewrite lookup_empty.
  - by apply step_reconnect_tracked.
Qed.

Lemma destroy_fields (p : Provider) :
  channel (destroy p).1 = None
  /\ docObserved (destroy p).1 = false
  /\ shouldReconnect (destroy p).1 = false
  /\ broadcastTimeout (destroy p).1 = None
  /\ reconnectTimeout (destroy p).1 = None.
Proof. run_ops; done. Qed.

Lemma destroy_clears_timers (p : Provider) :
  reachable p -> Timers.pending (timers (destroy p).1) = ∅.
Proof.
  intros Hp.
  destruct (destroy_fields p) as (_ & _ & _ & Hbt & Hrt).
  pose proof (keeps_destroy p (reachable_timers_ok p Hp)) as (Hflush & _).
  pose proof (step_reconnect_tracked CallDestroy p
                (reachable_reconnect_tracked p Hp)) as Htracked.
  simpl in Htracked. apply map_empty. intros id.
  destruct (Timers.pending (timers (destroy p).1) !! id) as [[|]|] eqn:Hid;
    [| | done].
  - apply Hflush in Hid. congruence.
  - apply Htracked in Hid. congruence.
Qed.

Lemma destroy_removes_channel (p : Provider) (ch : Channel) :
  channel p = Some ch -> RemoveChannel ch ∈ (destroy p).2.
Proof.
  run_ops; intros Hch; simplify_eq;
    repeat (apply elem_of_cons; (by left) || right).
Qed.

(** X13: in every reachable state [destroy()] ends with neither of the
    provider's own timers (flush, reconnect) pending, the [channel] field
    null, the document listener off and the reconnect intent off, and the
    channel the field held has been handed to [removeChannel].  (The
    interval a presence container keeps, and channels of earlier
    [connect()] calls that the field no longer refers to, are not part of
    the provider's state; nothing is stated about them.) *)
Theorem destroy_tears_down (p : Provider) :
  reachable p ->
  torn_down (destroy p).1
  /\ forall ch : Channel,
      channel p = Some ch -> RemoveChannel ch ∈ (destroy p).2.
Proof.
  intros Hp. split.
  - destruct (destroy_fields p) as (Hch & Hobs & Hwant & _).
    split; [done |]. split; [done |]. split; [done |].
    by apply destroy_clears_timers.
  - apply destroy_removes_channel.
Qed.

(** X14: at most one flush timer and at most one reconnect timer are pending
    at any time. *)
Theorem one_timer_of_each_kind (p : Provider) (k : TimerKind) (id id' : TimerId) :
  reachable p ->
  Timers.pending (timers p) !! id = Some k ->
  Timers.pending (timers p) !! id' = Some k ->
  id = id'.
Proof.
  intros Hp Hid Hid'. destruct k.
  - destruct (reachable_timers_ok p Hp) as (Hflush & _).
    apply Hflush in Hid, Hid'. congruence.
  - pose proof (reachable_reconnect_tracked p Hp) as Htracked.
    apply Htracked in Hid, Hid'. congruence.
Qed.

Lemma torn_down_step (ev : Event) (p : Provider) :
  ev <> CallConnect -> torn_down p ->
  silent (step ev p).2 /\ torn_down (step ev p).1.
Proof.
  intros Hev (Hch & Hobs & Hwant & Hpending). unfold torn_down.
  destruct ev as [| |st err|payload|payload|payload|d u origin
                 |aw changes origin|id]; try done;
    try destruct st; unfold_ops;
    repeat (simpl;
            rewrite ?Hch, ?Hobs, ?Hwant, ?Hpending, ?lookup_empty,
              ?delete_empty, ?orb_true_r;
            try break_match);
    simplify_eq; rewrite ?Hch, ?Hobs, ?Hwant, ?Hpending, ?delete_empty;
    try match goal with
        | H : channel _ = Some _ |- _ => simpl in H; congruence
        end;
    (split; [silent_goal | done]).
Qed.

(** X15: after [destroy()] the provider stays silent until [connect()] is
    called again: whatever events follow (local edits, inbound messages,
    channel callbacks, timers), it sends no message and arms no timer. *)
Theorem destroyed_stays_silent (p : Provider) (evs : list Event) :
  reachable p ->
  Forall (fun ev => ev <> CallConnect) evs ->
  silent (run evs (destroy p).1).2
  /\ torn_down (run evs (destroy p).1).1.
Proof.
  intros Hp Hevs.
  assert (Hdown : torn_down (destroy p).1).
  { destruct (destroy_fields p) as (Hch & Hobs & Hwant & _).
    split; [done |]. split; [done |]. split; [done |].
    by apply destroy_clears_timers. }
  clear Hp. rename Hdown into Hp.
  revert Hp. generalize (destroy p).1. clear p.
  induction Hevs as [|ev evs Hev _ IH]; intros p Hp.
  - split; [constructor | done].
  - rewrite run_cons. cbn [fst snd].
    destruct (torn_down_step ev p Hev Hp) as [Hsilent Hp'].
    destruct (IH _ Hp') as [Hsilent' Hp''].
    split; [by apply Forall_app | done].
Qed.

Lemma closed_arms_reconnect (q : Provider) :
  autoReconnect_of q = true -> shouldReconnect q = true ->
  attempts_exhausted q = false -> reconnectTimeout q = None ->
  Timers.pending (timers (step (ChannelStatus CLOSED None) q).1)
  = <[Timers.next (timers q) := Reconnect]> (Timers.pending (timers q)).
Proof.
  intros Hauto Hwant Hleft Hrt.
  unfold autoReconnect_of, attempts_exhausted in *.
  unfold_ops. unfold autoReconnect_of, attempts_exhausted. simpl.
  by rewrite Hauto, Hwant, Hleft, Hrt.
Qed.

Lemma connect_fields (q : Provider) :
  shouldReconnect (connect q).1 = true
  /\ options (connect q).1 = options q
  /\ reconnectAttempts (connect q).1 = reconnectAttempts q
  /\ reconnectTimeout (connect q).1 = reconnectTimeout q
  /\ timers (connect q).1 = timers q.
Proof. done. Qed.

Lemma destroy_keeps_settings (p : Provider) :
  options (destroy p).1 = options p
  /\ reconnectAttempts (destroy p).1 = reconnectAttempts p
  /\ Timers.next (timers (destroy p).1) = Timers.next (timers p).
Proof. run_ops; done. Qed.

Lemma closed_after_connect (q : Provider) :
  autoReconnect_of q = true -> attempts_exhausted q = false ->
  reconnectTimeout q = None ->
  Timers.pending
    (timers (step (ChannelStatus CLOSED None) (step CallConnect q).1).1)
  = <[Timers.next (timers q) := Reconnect]> (Timers.pending (timers q)).
Proof.
  intros Hauto Hleft Hrt.
  destruct (connect_fields q) as (Hwant' & Hopts' & Hattempts' & Hrt' & Htimers').
  change (step CallConnect q) with (connect q).
  rewrite closed_arms_reconnect.
  - by rewrite Htimers'.
  - unfold autoReconnect_of in *. by rewrite Hopts'.
  - done.
  - unfold attempts_exhausted in *. by rewrite Hopts', Hattempts'.
  - by rewrite Hrt'.
Qed.

Lemma run_three (a b c : Event) (p : Provider) :
  (run [a; b; c] p).1 = (step c (step b (step a p).1).1).1.
Proof. by rewrite !run_cons. Qed.

(** X16: [connect()] after [destroy()] brings reconnection back: when the new
    subscription closes, exactly one timer is pending, the reconnect timer
    (unless reconnecting is switched off or the attempts are used up). *)
Theorem reconnects_after_destroy (p : Provider) :
  reachable p ->
  autoReconnect_of p = true ->
  attempts_exhausted p = false ->
  Timers.pending
    (timers (run [CallDestroy; CallConnect; ChannelStatus CLOSED None] p).1)
  = {[ Timers.next (timers p) := Reconnect ]}.
Proof.
  intros Hp Hauto Hleft.
  pose proof (destroy_clears_timers p Hp) as Hpending.
  destruct (destroy_fields p) as (_ & _ & _ & _ & Hrt).
  destruct (destroy_keeps_settings p) as (Hopts & Hattempts & Hnext).
  rewrite run_three.
  rewrite (closed_after_connect (step CallDestroy p).1).
  - change (step CallDestroy p) with (destroy p).
    rewrite Hpending, Hnext. reflexivity.
  - unfold autoReconnect_of in *. rewrite <- Hopts in Hauto. exact Hauto.
  - unfold attempts_exhausted in *.
    rewrite <- Hopts, <- Hattempts in Hleft. exact Hleft.
  - exact Hrt.
Qed.
End teardown.

(** ** Identity, peers and reconnect attempts *)

Section lifecycle.
Context `{ME : MergeEngine}.

Lemma step_identity (ev : Event) (p : Provider) :
  userId (step ev p).1 = userId p /\ options (step ev p).1 = options p.
Proof. destruct ev; run_ops; done. Qed.

(** X17: the session identity and the options are fixed at construction: no
    event ever changes them. *)
Theorem identity_constant (evs : list Event) (p : Provider) :
  userId (run evs p).1 = userId p /\ options (run evs p).1 = options p.
Proof.
  revert p. induction evs as [|ev evs IH]; intros p; [done |].
  rewrite run_cons. cbn [fst snd].
  destruct (IH (step ev p).1) as [-> ->]. apply step_identity.
Qed.

Lemma step_own_id (ev : Event) (p : Provider) :
  userId p ∉ syncedPeers p ->
  userId (step ev p).1 ∉ syncedPeers (step ev p).1.
Proof.
  intros Hp. destruct ev; run_ops; simplify_eq; try done;
    try apply not_elem_of_empty.
  all: apply not_elem_of_union; split; [| done];
    apply not_elem_of_singleton; congruence.
Qed.

(** X18: the provider never marks itself as a synced peer. *)
Theorem own_id_never_synced (p : Provider) :
  reachable p -> userId p ∉ syncedPeers p.
Proof.
  induction 1 as [uid d aw opts | ev p _ IH].
  - simpl. apply not_elem_of_empty.
  - by apply step_own_id.
Qed.

Lemma step_attempts (ev : Event) (p : Provider) :
  attempts_in_range p -> attempts_in_range (step ev p).1.
Proof.
  unfold attempts_in_range, attempts_exhausted.
  intros [Hlow Hhigh]. destruct ev; run_ops; simplify_eq; use_eqns;
    try (split; [lia | intros; lia]); try done.
  all: split; [lia |]; intros m Hm;
    repeat match goal with
           | H : negb _ || _ || _ = false |- _ =>
               apply orb_false_iff in H as [_ H]
           | H : attempts_exhausted _ = false |- _ =>
               unfold attempts_exhausted in H; simpl in H; rewrite Hm in H
           | H : (_ <=? _) = false |- _ => apply Z.leb_gt in H
           end; specialize (Hhigh _ Hm); lia.
Qed.

(** X19: the attempt counter is never negative and never passes
    [maxReconnectAttempts]; once it has reached the maximum,
    [scheduleReconnect] does nothing. *)
Theorem reconnect_attempts_bounded (p : Provider) (m : Z) :
  reachable p ->
  options p ≫= maxReconnectAttempts = Some m ->
  0 <= reconnectAttempts p <= Z.max 0 m
  /\ (m <= reconnectAttempts p -> scheduleReconnect p = (p, [])).
Proof.
  intros Hp Hm.
  assert (Hrange : attempts_in_range p).
  { clear Hm. induction Hp as [uid d aw opts | ev p _ IH].
    - split; [done |]. intros m' _. simpl. lia.
    - by apply step_attempts. }
  destruct Hrange as [Hlow Hhigh]. split; [split; [done | by apply Hhigh] |].
  intros Hfull. unfold scheduleReconnect, attempts_exhausted.
  rewrite Hm. apply Z.leb_le in Hfull. rewrite Hfull.
  by rewrite orb_true_r.
Qed.

(** X20: a reconnect timer is armed by nothing but a channel callback reporting
    an error, a timeout or a close, and only while reconnecting is wanted
    ([autoReconnect] not false, no [destroy()] since the last [connect()])
    and attempts are left. *)
Theorem reconnect_timer_origin (ev : Event) (p : Provider) (id : TimerId)
    (delay : JSNumber) :
  SetTimeout id Reconnect delay ∈ (step ev p).2 ->
  (exists st err, ev = ChannelStatus st err /\ st <> SUBSCRIBED)
  /\ autoReconnect_of p = true
  /\ shouldReconnect p = true
  /\ attempts_exhausted p = false.
Proof.
  destruct ev as [| |st err|payload|payload|payload|d u origin
                 |aw changes origin|tid]; try destruct st; run_ops;
    intros Hin;
    repeat match goal with
           | H : _ ∈ [] |- _ => by apply not_elem_of_nil in H
           | H : _ ∈ _ :: _ |- _ => apply elem_of_cons in H as [H | H]
           end; try discriminate;
    repeat match goal with
           | H : negb _ || _ || _ = false |- _ =>
               apply orb_false_iff in H as [H ?]
           | H : negb _ || _ = false |- _ =>
               apply orb_false_iff in H as [H ?]
           | H : negb _ = false |- _ => apply negb_false_iff in H
           end;
    (split; [by eexists _, _ | done]).
Qed.

(** X21: a successful subscription resets the backoff: the first reconnect
    delay after it is [min reconnectDelay maxReconnectDelay] again. *)
Theorem subscribed_resets_backoff (p : Provider) (st : REALTIME_SUBSCRIBE_STATES)
    (err err' : option string) (id : TimerId) (k : TimerKind)
    (delay : JSNumber) :
  let p' := (step (ChannelStatus SUBSCRIBED err) p).1 in
  status p' = connected
  /\ reconnectAttempts p' = 0
  /\ (SetTimeout id k delay ∈ (step (ChannelStatus st err') p').2 ->
      delay = Finite (Z.min (baseDelay_of p) (maxDelay_of p))).
Proof.
  intros p'.
  assert (Hfields : status p' = connected /\ reconnectAttempts p' = 0
                    /\ options p' = options p)
    by (unfold p'; run_ops; done).
  destruct Hfields as (Hst & Hzero & Hopts).
  split; [done |]. split; [done |].
  clearbody p'. unfold baseDelay_of, maxDelay_of. rewrite <- Hopts.
  destruct st; run_ops; intros Hin;
    repeat match goal with
           | H : _ ∈ [] |- _ => by apply not_elem_of_nil in H
           | H : _ ∈ _ :: _ |- _ => apply elem_of_cons in H as [H | H]
           end; try discriminate; simplify_eq;
    unfold baseDelay_of, maxDelay_of; rewrite Hzero; apply backoff_first.
Qed.

End lifecycle.

(** ** The further properties at work *)

Section more_examples.
Import LogEngine Samples.

Lemma emit_other_event_witness :
  EventBus.emit EventBus.name_status status_args
    (EventBus.on EventBus.name_error 9%nat status_listeners)
  = EventBus.emit EventBus.name_status status_args status_listeners
  /\ EventBus.emit EventBus.name_status status_args
       (EventBus.off EventBus.name_error 9%nat status_listeners)
     = EventBus.emit EventBus.name_status status_args status_listeners.
Proof. apply EventBusFacts.emit_other_event. discriminate. Defined.

Lemma emit_after_on_witness :
  EventBus.calls_of 7%nat
    (EventBus.emit EventBus.name_status status_args
       (EventBus.on EventBus.name_status 7%nat status_listeners))
  = 1%nat.
Proof.
  apply EventBusFacts.emit_after_on.
  repeat apply EventBusFacts.on_distinct. apply EventBusFacts.empty_distinct.
Defined.

Lemma wire_injective_witness : [x01; x02] = [x01; x02].
Proof. apply wire_injective. reflexivity. Defined.

Lemma decodeUpdate_rejects_witness : decodeUpdate (js "bad-data") = None.
Proof.
  apply (decodeUpdate_rejects (js "bad-data") 45).
  - vm_compute. do 3 right. left.
  - reflexivity.
  - discriminate.
  - reflexivity.
Defined.

Lemma update_relay_witness :
  (broadcastUpdate [x01] UPDATE_EVENT connected).2
  = [Send 0%nat UPDATE_EVENT (wire [x01]) "me"]
  /\ forall d',
      Y_applyUpdate (doc other) [x01] = (d', None) ->
      handleRemoteUpdate {| body := wire [x01]; sender := "me" |} other
      = (set_doc d' other, [Emit (message_event [x01])]).
Proof.
  apply (update_relay connected other 0%nat [x01]).
  - reflexivity.
  - discriminate.
Defined.

Lemma state_vector_relay_witness :
  let sv := Y_encodeStateVector (doc connected) in
  (sendStateVector connected).2
  = [Send 0%nat STATE_VECTOR_EVENT (wire sv) "me"]
  /\ exists rest,
      (handleStateVector {| body := wire sv; sender := "me" |} other).2
      = ComputeDiff sv :: rest.
Proof.
  apply (state_vector_relay connected other 0%nat).
  - reflexivity.
  - discriminate.
  - simpl. apply not_elem_of_empty.
Defined.

Lemma remote_input_no_echo_witness :
  let ev := OnUpdate (message "AQ==" "peer-2") in
  silent (step ev connected_throttled).2
  /\ pendingUpdates (step ev connected_throttled).1
     = pendingUpdates connected_throttled.
Proof. apply remote_input_no_echo. exact I. Defined.

Lemma unthrottled_edits_broadcast_witness :
  let edits := [([[x01]], [x01]); ([[x02]; [x01]], [x02])] in
  (run (local_edits edits) connected).2
  = map (fun e => Send 0%nat UPDATE_EVENT (wire e.2) "me") edits
  /\ pendingUpdates (run (local_edits edits) connected).1
     = pendingUpdates connected
  /\ timers (run (local_edits edits) connected).1 = timers connected.
Proof.
  apply (unthrottled_edits_broadcast _ connected 0%nat).
  - vm_compute. discriminate.
  - reflexivity.
  - reflexivity.
Defined.

Lemma reachable_buffering_one : reachable buffering_one.
Proof. apply reachable_step, reachable_connected_throttled. Qed.

Lemma reachable_met_peer : reachable met_peer.
Proof. apply reachable_step, reachable_connected. Qed.

Lemma reachable_failed_twice : reachable failed_twice.
Proof. apply reachable_run, reachable_new. Qed.

Lemma destroy_tears_down_witness :
  torn_down (destroy buffering_one).1
  /\ RemoveChannel 0%nat ∈ (destroy buffering_one).2.
Proof.
  destruct (destroy_tears_down buffering_one reachable_buffering_one)
    as [Htorn Hremoved].
  split; [exact Htorn |]. by apply Hremoved.
Defined.

Lemma one_timer_of_each_kind_witness : 1%nat = 1%nat.
Proof.
  apply (one_timer_of_each_kind buffering_one Flush).
  - apply reachable_buffering_one.
  - reflexivity.
  - reflexivity.
Defined.

Lemma destroyed_stays_silent_witness :
  let evs := [DocUpdate [[x02]] [x02] origin_other;
              OnStateVector (message "AA==" "peer-2");
              ChannelStatus CLOSED None;
              TimerFires 1%nat] in
  silent (run evs (destroy buffering_one).1).2
  /\ torn_down (run evs (destroy buffering_one).1).1.
Proof.
  apply destroyed_stays_silent.
  - apply reachable_buffering_one.
  - repeat (apply Forall_cons_2; [discriminate |]). apply Forall_nil_2.
Defined.

Lemma reconnects_after_destroy_witness :
  Timers.pending
    (timers (run [CallDestroy; CallConnect; ChannelStatus CLOSED None]
                 connected).1)
  = {[ Timers.next (timers connected) := Reconnect ]}.
Proof.
  apply reconnects_after_destroy.
  - apply reachable_connected.
  - reflexivity.
  - reflexivity.
Defined.

Lemma own_id_never_synced_witness : userId met_peer ∉ syncedPeers met_peer.
Proof. apply own_id_never_synced. apply reachable_met_peer. Defined.

Lemma reconnect_attempts_bounded_witness :
  0 <= reconnectAttempts failed_twice <= Z.max 0 2
  /\ (2 <= reconnectAttempts failed_twice ->
      scheduleReconnect failed_twice = (failed_twice, [])).
Proof.
  apply reconnect_attempts_bounded.
  - apply reachable_failed_twice.
  - reflexivity.
Defined.

Lemma reconnect_timer_origin_witness :
  (exists st err, ChannelStatus CLOSED None = ChannelStatus st err
                  /\ st <> SUBSCRIBED)
  /\ autoReconnect_of connected = true
  /\ shouldReconnect connected = true
  /\ attempts_exhausted connected = false.
Proof.
  apply (reconnect_timer_origin (ChannelStatus CLOSED None) connected 1%nat
           (Finite 1000)).
  vm_compute. do 2 right. left.
Defined.

End more_examples.
